(** * Waste-matching portal: record composition, flattening, column
      derivation, CSV export and client-side graph construction.

    A shallow embedding of the pure logic of the portal frontend:
    - [composePortalRecords]      (utils/composePortalRecords.ts)
    - [flatten], [unionKeysWithPreferred], [toCell], [csvDownload]
                                  (the Match page)
    - the graph-construction step of [fetchMaterialsAndCycles]
                                  (pages/Cycles.tsx)

    Conventions of the embedding.
    - A string is its sequence of code units; code units below 256 are
      covered, one [ascii] each.
    - A number is an integer-valued one, printed in plain decimal.
    - An object is the list of its own enumerable properties in enumeration
      order, and its prototype is [Object.prototype], as for every object
      read from JSON or written as a literal.  A read of a name that the
      object does not hold is answered by the prototype where the code
      reads a name that the data chooses: [graph_get] and [get_prop].
      An array has no holes.
    - A function that updates an object or array in place takes the old
      value and returns the new one. *)

From Stdlib Require Import ZArith Ascii DecimalString.
From stdpp Require Import base list strings sorting gmap.

(** ** JavaScript values *)

#[local] Unset Elimination Schemes.

Inductive value : Type :=
  | VUndef : value
  | VNull : value
  | VBool : bool -> value
  | VNum : Z -> value
  | VStr : string -> value
  | VArr : list value -> value
  | VObj : list (string * value) -> value.

#[local] Set Elimination Schemes.

(** An object: its own properties, in enumeration order. *)
Abbreviation obj := (list (string * value)).

(** [v && typeof v === "object" && !Array.isArray(v)] *)
Definition is_plain_object (v : value) : bool :=
  match v with VObj _ => true | _ => false end.

(** [o[k]] on an object, [None] when [k] is not a property of [o]. *)
Fixpoint obj_get (o : obj) (k : string) : option value :=
  match o with
  | [] => None
  | (k', v) :: o' => if String.eqb k' k then Some v else obj_get o' k
  end.

(** [String(n)] for a number. *)
Definition num_to_string (n : Z) : string :=
  NilZero.string_of_int (Z.to_int n).

(** The array index that a key spells: the canonical decimal form of an
    integer below 2^32 - 1.  An object enumerates such keys first, in
    ascending order, and its other keys after them in creation order. *)
Definition array_index (k : string) : option N :=
  match NilZero.uint_of_string k with
  | Some u =>
      let n := N.of_uint u in
      if String.eqb (num_to_string (Z.of_N n)) k && (n <? 4294967295)%N
      then Some n else None
  | None => None
  end.

(** A new key [k] is enumerated before the existing key [k']. *)
Definition enumerated_before (k k' : string) : bool :=
  match array_index k, array_index k' with
  | Some n, Some n' => (n <? n')%N
  | Some _, None => true
  | None, _ => false
  end.

(** [o[k] = v]: an existing property keeps its place and takes the new
    value; a new property takes its place in the enumeration order, which
    is the last place unless [k] is an array index. *)
Fixpoint obj_set (k : string) (v : value) (o : obj) : obj :=
  match o with
  | [] => [(k, v)]
  | (k', v') :: o' =>
      if String.eqb k' k then (k', v) :: o'
      else if enumerated_before k k' then (k, v) :: (k', v') :: o'
      else (k', v') :: obj_set k v o'
  end.

(** [l.includes(k)] on an array of strings. *)
Definition includes (l : list string) (k : string) : bool :=
  existsb (String.eqb k) l.

(** [s.includes(sub)] on strings. *)
Fixpoint str_includes (sub s : string) : bool :=
  String.prefix sub s ||
  match s with
  | EmptyString => false
  | String _ s' => str_includes sub s'
  end.

(** A non-empty string is truthy. *)
Definition truthy (s : string) : bool := negb (String.eqb s "").

(** The names that every object inherits from [Object.prototype] in a
    browser.  An object with no property of its own under one of them reads
    a built-in function there, and the prototype itself under the last
    one. *)
Definition Object_prototype_names : list string :=
  ["constructor"; "hasOwnProperty"; "isPrototypeOf"; "propertyIsEnumerable";
   "toLocaleString"; "toString"; "valueOf";
   "__defineGetter__"; "__defineSetter__";
   "__lookupGetter__"; "__lookupSetter__"; "__proto__"].

Definition inherited (k : string) : bool := includes Object_prototype_names k.

(** A loop whose body may throw: [None] once it has thrown. *)
Fixpoint try_fold {A B : Type} (body : A → B → option A) (a : A) (l : list B)
    : option A :=
  match l with
  | [] => Some a
  | x :: l' =>
      match body a x with
      | Some a' => try_fold body a' l'
      | None => None
      end
  end.

(** ** Record Composer *)

Module Composer.

Record PortalRecord : Type := mkRecord {
  COMMON : obj;
  GENERATOR : option obj;
  RECEIVER : option obj
}.

(** [{ ...base, "Factory Type": label }] *)
Definition with_factory_type (base : obj) (label : string) : obj :=
  obj_set "Factory Type" (VStr label) base.

(** A detail argument is an object or null; an object is truthy. *)
Definition truthy_detail (d : option obj) : bool :=
  match d with Some _ => true | None => false end.

Definition composePortalRecords (common : obj) (generator receiver : option obj)
    (roles : list string) : list PortalRecord :=
  let out := [] in
  let base := common in
  let out :=
    if includes roles "Waste Generator" && truthy_detail generator
    then out ++ [mkRecord (with_factory_type base "Waste Generator") generator None]
    else out in
  let out :=
    if includes roles "Receiver" && truthy_detail receiver
    then out ++ [mkRecord (with_factory_type base "Receiver") None receiver]
    else out in
  out.

(** [c] is [common] with "Factory Type" set to [label]: the tag reads back,
    every other property reads as in [common], and [c] has the properties
    of [common] in their order, the tag added last when it was absent. *)
Definition tagged_copy (common : obj) (label : string) (c : obj) : Prop :=
  obj_get c "Factory Type" = Some (VStr label) ∧
  (∀ k, k ≠ "Factory Type" → obj_get c k = obj_get common k) ∧
  (c.*1 = if decide ("Factory Type" ∈ common.*1)
          then common.*1 else common.*1 ++ ["Factory Type"]).

(** The record of a role: the tagged copy and the one matching section. *)
Definition generator_record (common g : obj) (r : PortalRecord) : Prop :=
  tagged_copy common "Waste Generator" (COMMON r) ∧
  GENERATOR r = Some g ∧ RECEIVER r = None.

Definition receiver_record (common d : obj) (r : PortalRecord) : Prop :=
  tagged_copy common "Receiver" (COMMON r) ∧
  GENERATOR r = None ∧ RECEIVER r = Some d.

(** The number of roles whose text contains [sub]. *)
Definition count_roles (sub : string) (roles : list string) : nat :=
  length (filter (λ r, str_includes sub r = true) roles).

(** A submission for both roles. *)
Definition demo_common : obj :=
  [("Factory Name", VStr "Acme Steel"); ("Factory Type", VNull);
   ("Location", VObj [("lat", VNum 13); ("lon", VNum 80)])].
Definition demo_generator : obj := [("Waste Type Name", VStr "Fly Ash")].
Definition demo_receiver : obj := [("Raw Material Name", VStr "Slag")].
Definition demo_roles : list string := ["Receiver"; "Waste Generator"].

End Composer.

(** ** Object Flattener *)

Module Flattener.

(** [prefix || "value"] *)
Definition prefix_or_value (prefix : string) : string :=
  if truthy prefix then prefix else "value".

(** [prefix ? `${prefix}.${k}` : k] *)
Definition dotted (prefix k : string) : string :=
  if truthy prefix then prefix +:+ "." +:+ k else k.

(** [flatten(obj, prefix, out)]; the loop [each] runs over
    [Object.entries(obj)].  An assignment [out[key] = v] makes or updates a
    property of [out]; the one key that the prototype intercepts,
    "__proto__", which neither makes nor updates one, is not told apart
    here. *)
Fixpoint flatten (o : value) (prefix : string) (out : obj) : obj :=
  match o with
  | VUndef | VNull => out
  | VArr _ => obj_set (prefix_or_value prefix) o out
  | VBool _ | VNum _ | VStr _ => obj_set (prefix_or_value prefix) o out
  | VObj entries =>
      (fix each (es : obj) (out : obj) {struct es} : obj :=
         match es with
         | [] => out
         | (k, v) :: es' =>
             let key := dotted prefix k in
             each es' (if is_plain_object v
                       then flatten v key out
                       else obj_set key v out)
         end) entries out
  end.

(** [flatten(v)], both defaults taken. *)
Definition flatten1 (v : value) : obj := flatten v "" [].

(** One turn of the loop over the entries. *)
Definition flatten_entry (prefix : string) (out : obj) (kv : string * value)
    : obj :=
  if is_plain_object kv.2
  then flatten kv.2 (dotted prefix kv.1) out
  else obj_set (dotted prefix kv.1) kv.2 out.

(** The value of a binding is not a plain object. *)
Definition not_plain (kv : string * value) : Prop :=
  is_plain_object kv.2 = false.

(** The value of a binding is not [undefined]. *)
Definition defined (kv : string * value) : Prop := kv.2 ≠ VUndef.

(** A value that holds no [undefined], as every value parsed from JSON. *)
Fixpoint no_undefined (v : value) : bool :=
  match v with
  | VUndef => false
  | VNull | VBool _ | VNum _ | VStr _ => true
  | VArr l => forallb no_undefined l
  | VObj o => forallb (λ '(_, x), no_undefined x) o
  end.

(** A match result as the backend sends it. *)
Definition demo_match : value :=
  VObj [("supplier_name", VStr "A");
        ("scores", VObj [("compatibility_score", VNum 87);
                         ("notes", VNull)]);
        ("tags", VArr [VStr "ash"; VObj [("k", VNum 1)]])].

End Flattener.

(** ** Column Unifier *)

Module Unifier.

(** [r && typeof r === "object"]: arrays and plain objects. *)
Definition is_object_typed (r : value) : bool :=
  match r with VObj _ | VArr _ => true | _ => false end.

(** The index keys of [n] elements, counted from [i]. *)
Fixpoint index_keys (i : nat) (n : nat) : list string :=
  match n with
  | O => []
  | S n' => num_to_string (Z.of_nat i) :: index_keys (S i) n'
  end.

(** [Object.keys(r)] *)
Definition Object_keys (r : value) : list string :=
  match r with
  | VObj o => o.*1
  | VArr l => index_keys 0 (length l)
  | VStr s => index_keys 0 (String.length s)
  | _ => []
  end.

(** [s.add(k)] on a [Set<string>], kept in insertion order; [s.has(k)] is
    [includes s k]. *)
Definition set_add (s : list string) (k : string) : list string :=
  if includes s k then s else s ++ [k].

(** One turn of the loop over the rows:
    [if (r && typeof r === "object") Object.keys(r).forEach((k) => s.add(k))] *)
Definition add_row_keys (s : list string) (r : value) : list string :=
  if is_object_typed r then foldl set_add s (Object_keys r) else s.

(** The default [sort()]: ascending by code units. *)
Definition sort_strings (l : list string) : list string :=
  merge_sort String.le l.

Definition unionKeysWithPreferred (rows : list value) (preferred : list string)
    : list string :=
  let s := foldl add_row_keys [] rows in
  let all := s in
  let orderedPref := List.filter (λ k, includes s k) preferred in
  let rest :=
    sort_strings (List.filter (λ k, negb (includes preferred k)) all) in
  orderedPref ++ rest.

(** [k] is a key of some object-typed row. *)
Definition key_of_rows (rows : list value) (k : string) : Prop :=
  ∃ r, r ∈ rows ∧ is_object_typed r = true ∧ k ∈ Object_keys r.

Global Instance key_of_rows_dec rows k : Decision (key_of_rows rows k).
Proof.
  refine (cast_if (decide (Exists (λ r, is_object_typed r = true ∧
                                        k ∈ Object_keys r) rows)));
    unfold key_of_rows; rewrite Exists_exists in *; firstorder.
Defined.

(** The number of times [k] occurs in [l]. *)
Definition multiplicity (k : string) (l : list string) : nat :=
  length (filter (λ x, x = k) l).

End Unifier.

(** ** CSV Exporter *)

Module Csv.

Definition dquote : ascii := "034"%char.
Definition newline : ascii := "010"%char.
Definition backslash : ascii := "092"%char.

(** The code units of a string. *)
Abbreviation chars := String.list_ascii_of_string.

Definition bool_to_string (b : bool) : string :=
  if b then "true" else "false".

(** [String(v)] *)
Fixpoint to_String (v : value) : string :=
  match v with
  | VUndef => "undefined"
  | VNull => "null"
  | VBool b => bool_to_string b
  | VNum n => num_to_string n
  | VStr s => s
  | VArr l =>
      String.concat ","
        (List.map (λ x, match x with
                        | VUndef | VNull => ""
                        | _ => to_String x
                        end) l)
  | VObj _ => "[object Object]"
  end.

Definition hex_digit (n : nat) : ascii :=
  match String.get n "0123456789abcdef" with
  | Some c => c
  | None => "0"%char
  end.

(** One code unit inside a JSON string literal. *)
Definition json_escape (c : ascii) : string :=
  let n := nat_of_ascii c in
  if Ascii.eqb c dquote then String backslash (String dquote "")
  else if Ascii.eqb c backslash then String backslash (String backslash "")
  else if n =? 8 then "\b"
  else if n =? 9 then "\t"
  else if n =? 10 then "\n"
  else if n =? 12 then "\f"
  else if n =? 13 then "\r"
  else if n <? 32 then
    "\u00" +:+ String (hex_digit (n / 16)) (String (hex_digit (n mod 16)) "")
  else String c "".

Fixpoint json_escape_all (s : string) : string :=
  match s with
  | EmptyString => ""
  | String c s' => json_escape c +:+ json_escape_all s'
  end.

Definition json_quote (s : string) : string :=
  String dquote (json_escape_all s +:+ String dquote "").

(** [JSON.stringify(v)]; [None] is the result [undefined]. *)
Fixpoint JSON_stringify (v : value) : option string :=
  match v with
  | VUndef => None
  | VNull => Some "null"
  | VBool b => Some (bool_to_string b)
  | VNum n => Some (num_to_string n)
  | VStr s => Some (json_quote s)
  | VArr l =>
      Some ("[" +:+
            String.concat ","
              (List.map (λ x, default "null" (JSON_stringify x)) l) +:+ "]")
  | VObj o =>
      Some ("{" +:+
            String.concat ","
              ((fix members (o : obj) : list string :=
                  match o with
                  | [] => []
                  | (k, x) :: o' =>
                      match JSON_stringify x with
                      | Some t => (json_quote k +:+ ":" +:+ t) :: members o'
                      | None => members o'
                      end
                  end) o) +:+ "}")
  end.

Definition isPrimitive (v : value) : bool :=
  match v with
  | VNull | VStr _ | VNum _ | VBool _ => true
  | _ => false
  end.

Definition toCell (v : value) : value :=
  if isPrimitive v then v
  else match JSON_stringify v with
       | Some s => VStr s
       | None => VUndef
       end.

(** [l[h]] for an array or the code units of a string: the element at the
    index that [h] spells, counted from [i]. *)
Fixpoint index_get {A : Type} (l : list A) (i : nat) (h : string) : option A :=
  match l with
  | [] => None
  | x :: l' =>
      if String.eqb (num_to_string (Z.of_nat i)) h then Some x
      else index_get l' (S i) h
  end.

(** [r?.[h]].  A property of the row itself wins.  For any other name the
    prototype answers: under "__proto__" with itself, which is
    [Object.prototype], an object without enumerable properties, for an
    object, and [Array.prototype], an empty array, for an array.  The
    other inherited names are built-in methods; such a read is
    [undefined] here, which is what [toCell] makes of a function, and none
    of the names that the pages read literally is the name of a method.
    A string, a number or a boolean is read at its own indices and length
    only. *)
Definition get_prop (r : value) (h : string) : value :=
  match r with
  | VUndef | VNull => VUndef
  | VObj o =>
      match obj_get o h with
      | Some v => v
      | None => if String.eqb h "__proto__" then VObj [] else VUndef
      end
  | VArr l =>
      if String.eqb h "length" then VNum (Z.of_nat (length l))
      else if String.eqb h "__proto__" then VArr []
      else default VUndef (index_get l 0 h)
  | VStr s =>
      if String.eqb h "length" then VNum (Z.of_nat (String.length s))
      else default VUndef ((λ c, VStr (String c "")) <$> index_get (chars s) 0 h)
  | VBool _ | VNum _ => VUndef
  end.

(** [cell ?? ""] *)
Definition or_empty (cell : value) : value :=
  match cell with
  | VUndef | VNull => VStr ""
  | _ => cell
  end.

(** The character class of the test in the source: double quote, comma,
    line feed. *)
Definition csv_special (c : ascii) : bool :=
  Ascii.eqb c dquote || Ascii.eqb c ","%char || Ascii.eqb c newline.

Fixpoint needs_quoting (s : string) : bool :=
  match s with
  | EmptyString => false
  | String c s' => csv_special c || needs_quoting s'
  end.

(** The global replace of the source: every double quote is doubled. *)
Fixpoint double_quotes (s : string) : string :=
  match s with
  | EmptyString => ""
  | String c s' =>
      if Ascii.eqb c dquote
      then String dquote (String dquote (double_quotes s'))
      else String c (double_quotes s')
  end.

(** The text of one field: the body of the inner [map]. *)
Definition field (cell : value) : string :=
  let s := to_String (or_empty cell) in
  if needs_quoting s
  then String dquote (double_quotes s +:+ String dquote "")
  else s.

(** The CSV text built by [csvDownload] once [rows] is known non-empty. *)
Definition csv_text (rows : list value) (headers : list string) : string :=
  let outRows :=
    List.map (λ r, List.map (λ h, toCell (get_prop r h)) headers) rows in
  String.concat (String newline "")
    (List.map (λ row, String.concat "," (List.map field row))
       (List.map VStr headers :: outRows)).

(** What a call of [csvDownload] does to the page: a Blob holding
    [blob_text] with MIME type [blob_type] is created, and an anchor whose
    target is the Blob's object URL and whose download name is [file_name]
    is clicked. *)
Record download : Type := mkDownload {
  blob_text : string;
  blob_type : string;
  file_name : string
}.

(** [None]: the call returns without creating or clicking anything. *)
Definition csvDownload (rows : list value) (headers : list string)
    (filename : string) : option download :=
  if (length rows =? 0)%nat then None
  else Some (mkDownload (csv_text rows headers) "text/csv" filename).

(** [s] contains a comma, a double quote or a line feed. *)
Definition has_special (s : string) : Prop :=
  ","%char ∈ chars s ∨ dquote ∈ chars s ∨ newline ∈ chars s.

(** [s] between double quotes. *)
Definition in_quotes (s : string) : string :=
  String dquote (s +:+ String dquote "").

(** The code units of [s], each double quote twice. *)
Definition doubled (s : string) : list ascii :=
  c ← chars s; if decide (c = dquote) then [dquote; dquote] else [c].

(** One row of the materials table. *)
Definition demo_row : value := VObj [("a", VStr "x,y"); ("b", VNum 1)].

End Csv.

(** ** Client Graph Builder *)

Module Graph.

Record MaterialsRow : Type := mkRow {
  factory_id : Z;
  factory_name : string;
  role : string;
  waste_type_name : option string;
  raw_material_name : option string
}.

(** White space and line terminators, as [trim] sees them. *)
Definition is_space (c : ascii) : bool :=
  let n := nat_of_ascii c in
  ((9 <=? n) && (n <=? 13)) || (n =? 32) || (n =? 160).

Fixpoint trim_start (s : string) : string :=
  match s with
  | EmptyString => ""
  | String c s' => if is_space c then trim_start s' else s
  end.

Fixpoint trim_end (s : string) : string :=
  match s with
  | EmptyString => ""
  | String c s' =>
      let t := trim_end s' in
      if is_space c && String.eqb t "" then "" else String c t
  end.

Definition trim (s : string) : string := trim_end (trim_start s).

Definition lower_char (c : ascii) : ascii :=
  let n := nat_of_ascii c in
  if ((65 <=? n) && (n <=? 90)) ||
     ((192 <=? n) && (n <=? 222) && negb (n =? 215))
  then ascii_of_nat (n + 32)
  else c.

Fixpoint toLowerCase (s : string) : string :=
  match s with
  | EmptyString => ""
  | String c s' => String (lower_char c) (toLowerCase s')
  end.

(** [norm]: a missing, null or empty text is falsy and gives the empty
    string. *)
Definition norm (s : option string) : string :=
  match s with
  | None => ""
  | Some t => if truthy t then toLowerCase (trim t) else ""
  end.

(** [m.factory_name || `Factory#${m.factory_id}`] *)
Definition label (m : MaterialsRow) : string :=
  if truthy (factory_name m) then factory_name m
  else "Factory#" +:+ num_to_string (factory_id m).

(** The two filters. *)
Definition is_gen (m : MaterialsRow) : bool :=
  str_includes "generator" (norm (Some (role m))) &&
  truthy (norm (waste_type_name m)).

Definition is_rec (m : MaterialsRow) : bool :=
  str_includes "receiver" (norm (Some (role m))) &&
  truthy (norm (raw_material_name m)).

(** [if (!ns.includes(rName)) ns.push(rName)] *)
Definition push (ns : list string) (rName : string) : list string :=
  if includes ns rName then ns else ns ++ [rName].

(** What [graph[gName]] reads: the list stored under the key, or what the
    prototype answers when the graph has no such key. *)
Inductive slot : Type :=
  | Own (ns : list string)
  | Inherited
  | Missing.

Definition graph_get (graph : gmap string (list string)) (gName : string)
    : slot :=
  match graph !! gName with
  | Some ns => Own ns
  | None => if inherited gName then Inherited else Missing
  end.

(** The two statements that record an edge:
    [if (!graph[gName]) graph[gName] = [];]
    [if (!graph[gName].includes(rName)) graph[gName].push(rName);]
    Whatever the prototype answers is truthy and has no method [includes]:
    the call throws a TypeError, which is [None]. *)
Definition add_edge (graph : gmap string (list string)) (gName rName : string)
    : option (gmap string (list string)) :=
  let graph :=
    match graph_get graph gName with
    | Missing => <[gName := []]> graph
    | _ => graph
    end in
  match graph_get graph gName with
  | Own ns => Some (<[gName := push ns rName]> graph)
  | _ => None
  end.

Definition same_material (g r : MaterialsRow) : bool :=
  String.eqb (norm (waste_type_name g)) (norm (raw_material_name r)).

(** The body of the inner loop, for generator row [g]. *)
Definition visit (g : MaterialsRow) (graph : gmap string (list string))
    (r : MaterialsRow) : option (gmap string (list string)) :=
  let gName := label g in
  if negb (same_material g r) then Some graph
  else
    let rName := label r in
    if String.eqb gName rName then Some graph
    else add_edge graph gName rName.

(** [None]: the construction throws, and no graph is built. *)
Definition buildGraph (materials_full : list MaterialsRow)
    : option (gmap string (list string)) :=
  let gens := List.filter is_gen materials_full in
  let recs := List.filter is_rec materials_full in
  try_fold (λ graph g, try_fold (visit g) graph recs) ∅ gens.

(** The neighbour list of [G], empty when [G] is no key of the graph. *)
Definition nbrs (graph : gmap string (list string)) (G : string)
    : list string :=
  default [] (graph !! G).

(** No key is bound to an empty list. *)
Definition no_empty (graph : gmap string (list string)) : Prop :=
  ∀ G, graph !! G ≠ Some [].

(** No key of the graph is a name of [Object.prototype]. *)
Definition no_inherited_key (graph : gmap string (list string)) : Prop :=
  ∀ G, inherited G = true → graph !! G = None.

(** The receiver labels that generator row [g] offers to its own label:
    those of the receiver rows with the same material and another label, in
    the order of the inner loop. *)
Definition offers_of (g : MaterialsRow) (recs : list MaterialsRow)
    : list string :=
  r ← recs;
  if decide (norm (waste_type_name g) = norm (raw_material_name r) ∧
             label r ≠ label g)
  then [label r] else [].

(** The receiver labels offered to generator label [G], in the order the
    two loops meet them. *)
Definition offers (rows : list MaterialsRow) (G : string) : list string :=
  g ← List.filter is_gen rows;
  if decide (label g = G) then offers_of g (List.filter is_rec rows) else [].

(** A list cut down to the first occurrence of each element. *)
Fixpoint first_occurrences (l : list string) : list string :=
  match l with
  | [] => []
  | x :: l' => x :: filter (λ y, y ≠ x) (first_occurrences l')
  end.

(** Some generator-like row labelled [G] and some receiver-like row
    labelled [R] carry the same trimmed, lower-cased material name, and
    [G] and [R] differ. *)
Definition edge_pair (rows : list MaterialsRow) (G R : string) : Prop :=
  ∃ g r w m,
    g ∈ rows ∧ r ∈ rows ∧
    str_includes "generator" (toLowerCase (trim (role g))) = true ∧
    waste_type_name g = Some w ∧ toLowerCase (trim w) ≠ "" ∧
    label g = G ∧
    str_includes "receiver" (toLowerCase (trim (role r))) = true ∧
    raw_material_name r = Some m ∧ toLowerCase (trim m) ≠ "" ∧
    label r = R ∧
    toLowerCase (trim w) = toLowerCase (trim m) ∧
    G ≠ R.

(** One generator and three receiver rows of the same material, two of
    them under one label. *)
Definition demo_rows : list MaterialsRow :=
  [mkRow 1 "A" "Waste Generator" (Some "Fly Ash") None;
   mkRow 2 "B" "Receiver" None (Some " fly ash");
   mkRow 3 "C" "receiver" None (Some "FLY ASH");
   mkRow 4 "B" "Receiver" None (Some "Fly Ash")].

End Graph.

Import Composer Flattener Unifier Csv Graph.

(** ** Checkbox group (components/forms/CheckboxGroup.tsx) *)

Module Selection.

(** [handleToggle(option)]; the result is what [onChange] receives. *)
Definition handleToggle (value : list string) (option : string) : list string :=
  if includes value option
  then List.filter (λ v, negb (String.eqb v option)) value
  else value ++ [option].

(** The [checked] attribute of the box of [option]. *)
Definition checked (value : list string) (option : string) : bool :=
  includes value option.

End Selection.

(** ** Factory wizard (pages/factories/FactoryWizard.tsx) *)

Module Wizard.

(** The fields of the form, as the component keeps them in state. *)
Record form : Type := mkForm {
  factoryName : string;
  industryType : string;
  email : string;
  location : value;
  productionCapacity : string;
  certification : list string;
  sustainabilityGoal : string;
  wasteCategory : string;
  wasteTypeName : string;
  wasteComposition : string;
  wasteProperties : list string;
  quantityGenerated : string;
  frequencyGeneration : string;
  storageCondition : string;
  disposalCost : string;
  hazardRating : string;
  preferredBuyer : string;
  rawMaterialName : string;
  rawMaterialCategory : string;
  requiredComposition : string;
  requiredProperties : list string;
  minPurity : string;
  contaminantTolerance : string;
  formNeeded : string;
  particleSize : string;
  temperatureReq : string;
  odorColor : string;
  quantityRequired : string;
  frequencyRequirement : string;
  qualityTolerance : string;
  budgetPerTon : string;
  contractType : string;
  certificationNeeded : string;
  maxDistance : Z
}.

(** An array of strings as a value. *)
Definition strings (l : list string) : value := VArr (VStr <$> l).

Definition totalSteps (roles : list string) : Z :=
  2 + (if includes roles "Waste Generator" then 1 else 0)
    + (if includes roles "Receiver" then 1 else 0).

(** The three object literals of [getPayload]. *)
Definition common_of (f : form) : obj :=
  [("Factory Name", VStr (factoryName f));
   ("Industry Type", VStr (industryType f));
   ("Location", location f);
   ("Certification", VStr (String.concat ", " (certification f)));
   ("Email", VStr (email f));
   ("Production Capacity", VStr (productionCapacity f));
   ("Sustainability Goal", VStr (sustainabilityGoal f))].

Definition generator_of (f : form) (roles : list string) : option obj :=
  if includes roles "Waste Generator" then
    Some [("Waste Category", VStr (wasteCategory f));
          ("Waste Type Name", VStr (wasteTypeName f));
          ("Waste Composition", VStr (wasteComposition f));
          ("Waste Properties", strings (wasteProperties f));
          ("Quantity Generated", VStr (quantityGenerated f));
          ("Frequency of Generation", VStr (frequencyGeneration f));
          ("Storage Condition", VStr (storageCondition f));
          ("Disposal Cost", VStr (disposalCost f));
          ("Certification / Hazard Rating", VStr (hazardRating f));
          ("Preferred Buyer Type", VStr (preferredBuyer f))]
  else None.

Definition receiver_of (f : form) (roles : list string) : option obj :=
  if includes roles "Receiver" then
    Some [("Raw Material Name", VStr (rawMaterialName f));
          ("Raw Material Category", VStr (rawMaterialCategory f));
          ("Required Chemical Composition", VStr (requiredComposition f));
          ("Required Physical Properties", strings (requiredProperties f));
          ("Minimum Purity Level", VStr (minPurity f));
          ("Contaminant Tolerance", VStr (contaminantTolerance f));
          ("Form of Material Needed", VStr (formNeeded f));
          ("Particle Size / Viscosity", VStr (particleSize f));
          ("Temperature Requirement", VStr (temperatureReq f));
          ("Odor or Color Tolerance", VStr (odorColor f));
          ("Quantity Required", VStr (quantityRequired f));
          ("Frequency of Requirement", VStr (frequencyRequirement f));
          ("Quality Tolerance Range", VStr (qualityTolerance f));
          ("Budget per Ton", VStr (budgetPerTon f));
          ("Contract Type", VStr (contractType f));
          ("Certification Needed", VStr (certificationNeeded f));
          ("Max Distance (km)", VNum (maxDistance f))]
  else None.

Definition getPayload (f : form) (roles : list string) : list PortalRecord :=
  composePortalRecords (common_of f) (generator_of f roles)
    (receiver_of f roles) roles.

(** What [renderStep] returns. *)
Inductive screen : Type :=
  | CommonScreen | GeneratorScreen | ReceiverScreen | ReviewScreen.

Definition renderStep (roles : list string) (step : Z) : screen :=
  if (step =? 1)%Z then CommonScreen
  else if includes roles "Waste Generator" && (step =? 2)%Z then GeneratorScreen
  else
    let receiverStep := if includes roles "Waste Generator" then 3%Z else 2%Z in
    if includes roles "Receiver" && (step =? receiverStep)%Z then ReceiverScreen
    else ReviewScreen.

(** [handleNext]: the new step, and the error toast if one is raised. *)
Definition handleNext (roles : list string) (step : Z) : Z * option string :=
  if (step =? 1)%Z && (length roles =? 0)%nat
  then (step, Some "Please select at least one role")
  else ((step + 1)%Z, None).

Definition handlePrev (step : Z) : Z := (step - 1)%Z.

(** The footer: Previous is disabled on step 1; Next is shown while the
    step is below [totalSteps], Submit otherwise. *)
Definition prev_disabled (step : Z) : bool := (step =? 1)%Z.
Definition next_shown (roles : list string) (step : Z) : bool :=
  (step <? totalSteps roles)%Z.
Definition submit_shown (roles : list string) (step : Z) : bool :=
  negb (next_shown roles step).

(** The state of the wizard that navigation depends on. *)
Record nav : Type := mkNav { step : Z; roles : list string }.

(** What the user can do: tick a role box, press Next, press Previous. *)
Inductive click : Type :=
  | Tick (option : string)
  | Next
  | Previous.

(** The two boxes of the Roles group. *)
Definition role_options : list string := ["Waste Generator"; "Receiver"].

(** One click, through the handler of the control when the page shows the
    control and it is enabled; a click on nothing changes nothing. *)
Definition on_click (s : nav) (c : click) : nav :=
  match c with
  | Tick o =>
      match renderStep (roles s) (step s) with
      | CommonScreen =>
          if includes role_options o
          then mkNav (step s) (Selection.handleToggle (roles s) o)
          else s
      | _ => s
      end
  | Next =>
      if next_shown (roles s) (step s)
      then mkNav (handleNext (roles s) (step s)).1 (roles s)
      else s
  | Previous =>
      if prev_disabled (step s) then s
      else mkNav (handlePrev (step s)) (roles s)
  end.

(** The wizard opens on step 1 with no role ticked. *)
Definition nav_init : nav := mkNav 1 [].

Definition run (clicks : list click) : nav := foldl on_click nav_init clicks.

(** The states that clicks can lead to: the step is one of the wizard's
    steps, the ticked roles are a set of the two options, and past step 1
    some role is ticked. *)
Definition nav_ok (s : nav) : Prop :=
  (1 ≤ step s ≤ totalSteps (roles s))%Z ∧
  NoDup (roles s) ∧
  Forall (λ r, r = "Waste Generator" ∨ r = "Receiver") (roles s) ∧
  (step s ≠ 1%Z → roles s ≠ []).

(** A filled form. *)
Definition demo_form : form :=
  mkForm "Acme Steel" "Metal" "ops@acme.test" (VStr "Chennai") "Medium"
    ["ISO 9001"; "ISO 14001"] "Zero landfill"
    "Solid" "Fly Ash" "SiO2" ["Fine Particles"] "10" "Weekly" "Covered" "0"
    "Low" "Cement"
    "Iron Scrap" "Solid" "Fe" ["High Density"] "80%" "<10%" "Lumps" "5mm"
    "Ambient" "None" "20" "Weekly" "5%" "1000" "Recurring" "None" 150.

End Wizard.

(** ** JavaScript truthiness *)

(** [!!v] *)
Definition truthy_value (v : value) : bool :=
  match v with
  | VUndef | VNull => false
  | VBool b => b
  | VNum n => negb (n =? 0)%Z
  | VStr s => truthy s
  | VArr _ | VObj _ => true
  end.

(** ** Dashboard (pages/Dashboard.tsx) *)

Module Dashboard.

(** [RolesRaw]: an array of strings, a string, or null / undefined. *)
Inductive RolesRaw : Type :=
  | RolesArray (l : list string)
  | RolesString (s : string)
  | RolesNone.

(** [s.split(sep)] for a one-character separator. *)
Fixpoint split_on (sep : ascii) (s : string) : list string :=
  match s with
  | EmptyString => [""]
  | String c s' =>
      if Ascii.eqb c sep then "" :: split_on sep s'
      else match split_on sep s' with
           | piece :: rest => String c piece :: rest
           | [] => [String c ""]
           end
  end.

Definition normalizeRoles (r : RolesRaw) : list string :=
  match r with
  | RolesArray l => l
  | RolesString s => List.filter truthy (List.map trim (split_on ","%char s))
  | RolesNone => []
  end.

(** The two KPI lists. *)
Definition generators (wasteMaterials : list PortalRecord) : list PortalRecord :=
  List.filter (λ f, truthy_detail (GENERATOR f)) wasteMaterials.

Definition receivers (wasteMaterials : list PortalRecord) : list PortalRecord :=
  List.filter (λ f, truthy_detail (RECEIVER f)) wasteMaterials.

(** [o?.[k]] on the COMMON section. *)
Definition common_field (wm : PortalRecord) (k : string) : value :=
  default VUndef (obj_get (COMMON wm) k).

(** The role badge of a submission. *)
Definition badge (wm : PortalRecord) : value :=
  let tag := common_field wm "Factory Type" in
  if truthy_value tag then tag
  else VStr (if truthy_detail (GENERATOR wm) then "Waste Generator"
             else if truthy_detail (RECEIVER wm) then "Receiver"
             else "Waste Material").

(** [wasteMaterials.slice(-5).reverse()] *)
Definition recent (wasteMaterials : list PortalRecord) : list PortalRecord :=
  reverse (drop (length wasteMaterials - 5) wasteMaterials).

(** A role text as [normalizeRoles] leaves it: not empty, without comma,
    without white space at either end. *)
Definition clean_role (r : string) : Prop :=
  r ≠ "" ∧ ¬ (","%char ∈ chars r) ∧ trim r = r.

End Dashboard.

(** ** Application store (store/useAppStore.ts) *)

Module Store.

(** [{ ...a, ...b }]: the properties of [a], then those of [b] set on top. *)
Definition spread2 (a b : obj) : obj :=
  foldl (λ o kv, obj_set kv.1 kv.2 o) a b.

Definition updateSettings (settings newSettings : obj) : obj :=
  spread2 settings newSettings.

Definition addWasteMaterial (wasteMaterials : list PortalRecord)
    (wasteMaterial : PortalRecord) : list PortalRecord :=
  wasteMaterials ++ [wasteMaterial].

(** [records.forEach((record) => addWasteMaterial(record))] *)
Definition add_all (wasteMaterials records : list PortalRecord)
    : list PortalRecord :=
  foldl addWasteMaterial wasteMaterials records.

End Store.

(** ** Materials and matches page *)

Module MatchPage.

Definition PAGE : nat := 100.

(** [a || b] *)
Definition or_value (a b : value) : value :=
  if truthy_value a then a else b.

(** [JSON.stringify(r || {}).toLowerCase().includes(q)].  The argument of
    [JSON.stringify] is truthy, so the result is a string and the last
    case does not arise. *)
Definition row_matches (q : string) (r : value) : bool :=
  match JSON_stringify (or_value r (VObj [])) with
  | Some text => str_includes q (toLowerCase text)
  | None => false
  end.

Definition materialsFiltered (materialsFull : list value)
    (materialsQuery : string) : list value :=
  if negb (truthy (trim materialsQuery)) then materialsFull
  else
    let q := toLowerCase materialsQuery in
    List.filter (row_matches q) materialsFull.

Definition materials_preferred : list string :=
  ["role"; "factory_name"; "industry_type"; "raw_material_name";
   "waste_type_name"; "raw_material_category"; "waste_category";
   "quantity_required"; "quantity_generated"; "frequency_requirement";
   "frequency_generation"; "location_text"; "location_lat"; "location_lon";
   "production_capacity"; "certification"; "sustainability_goal"; "email";
   "created_at"; "factory_id"; "receiver_id"; "generator_id"].

Definition materialsCols (materialsFiltered : list value) : list string :=
  unionKeysWithPreferred materialsFiltered materials_preferred.

(** A match with its flattened form. *)
Record paired : Type := mkPaired { orig : value; flat : obj }.

Definition matchesPaired (matchesRaw : list value) : list paired :=
  List.map (λ orig, mkPaired orig (flatten1 orig)) matchesRaw.

Definition matchesFiltered (matchesPaired : list paired)
    (matchesQuery : string) : list paired :=
  if negb (truthy (trim matchesQuery)) then matchesPaired
  else
    let q := toLowerCase matchesQuery in
    List.filter (λ p, row_matches q (VObj (flat p))) matchesPaired.

Definition matches_preferred : list string :=
  ["supplier_name"; "receiver_name"; "material_type"; "distance_km";
   "scores.compatibility_score"; "scores.material_score";
   "scores.distance_score"; "scores.quantity_score";
   "economics.matched_quantity_tons"; "economics.transport_cost";
   "economics.total_cost"; "economics.co2_saved_kg";
   "economics.eco_efficiency_score"].

Definition matchesCols (matchesFiltered : list paired) : list string :=
  let rows := List.map (λ p, VObj (flat p)) matchesFiltered in
  unionKeysWithPreferred rows matches_preferred.

(** Paging: the rows on screen, the Load more button and its handler. *)
Definition visible {A : Type} (rows : list A) (vis : nat) : list A :=
  take vis rows.

Definition load_more_shown {A : Type} (rows : list A) (vis : nat) : bool :=
  vis <? length rows.

Definition load_more (vis : nat) : nat := vis + PAGE.

(** [(r?.factory_name || "").toLowerCase().trim()]; [None] when the name
    is a truthy value that is not a string, on which the call of
    [toLowerCase] throws. *)
Definition name_key (r : value) : option string :=
  let n := get_prop r "factory_name" in
  if truthy_value n then
    match n with
    | VStr s => Some (trim (toLowerCase s))
    | _ => None
    end
  else Some "".

(** [arr.includes(id)] on an array of numbers. *)
Definition includes_id (arr : list Z) (id : Z) : bool :=
  existsb (Z.eqb id) arr.

(** One turn of the loop of [byName]. *)
Definition index_row (m : gmap string (list Z)) (r : value)
    : option (gmap string (list Z)) :=
  name ← name_key r;
  match get_prop r "factory_id" with
  | VNum id =>
      if truthy name then
        let arr := default [] (m !! name) in
        let arr := if includes_id arr id then arr else arr ++ [id] in
        Some (<[name := arr]> m)
      else Some m
  | _ => Some m
  end.

(** The loop goes on from the map so far, unless a turn has thrown. *)
Definition index_step (acc : option (gmap string (list Z))) (r : value)
    : option (gmap string (list Z)) :=
  acc ≫= λ m, index_row m r.

(** The index of factory ids by name; [None] when a turn throws. *)
Definition byName (materialsFull : list value)
    : option (gmap string (list Z)) :=
  foldl index_step (Some ∅) materialsFull.

(** [name] is a string or [undefined]. *)
Definition resolveFactoryIdByName (byName : gmap string (list Z))
    (name : option string) : option Z :=
  match name with
  | None => None
  | Some n =>
      if truthy n then
        match byName !! trim (toLowerCase n) with
        | Some (id :: _) => Some id
        | _ => None
        end
      else None
  end.

(** What [openMessageModalFor] does: an error toast, or the message
    dialog opened on a target factory under a title. *)
Inductive outcome : Type :=
  | Toast (message : string)
  | OpenModal (target : Z) (title : string).

Inductive side : Type := Supplier | Receiver.

Definition openMessageModalFor (byName : gmap string (list Z))
    (p : paired) (target : side) : outcome :=
  let m := or_value (orig p) (VObj []) in
  let targetName :=
    match target with
    | Supplier =>
        or_value (or_value (or_value (get_prop m "supplier_name")
                              (get_prop m "supplier"))
                    (get_prop m "supplierId")) (VStr "")
    | Receiver =>
        or_value (or_value (or_value (get_prop m "receiver_name")
                              (get_prop m "receiver"))
                    (get_prop m "receiverId")) (VStr "")
    end in
  let explicitId :=
    match target with
    | Supplier => or_value (get_prop m "supplier_id")
                    (get_prop m "supplierFactoryId")
    | Receiver => or_value (get_prop m "receiver_id")
                    (get_prop m "receiverFactoryId")
    end in
  let fid :=
    match explicitId with
    | VNum n => Some n
    | _ => resolveFactoryIdByName byName (Some (to_String targetName))
    end in
  match fid with
  | Some n =>
      if (n =? 0)%Z
      then Toast "Couldn't resolve target factory. Try messaging from the Materials table instead."
      else OpenModal n (if truthy (to_String targetName)
                        then to_String targetName
                        else "Factory #" +:+ num_to_string n)
  | None =>
      Toast "Couldn't resolve target factory. Try messaging from the Materials table instead."
  end.

(** The ids of the rows filed under [key], in the order of the rows. *)
Definition ids_of (rows : list value) (key : string) : list Z :=
  omap (λ r, match name_key r, get_prop r "factory_id" with
             | Some k, VNum id => if decide (k = key) then Some id else None
             | _, _ => None
             end) rows.

(** The ids filed under [key] in the index, none when [key] is absent. *)
Definition filed (m : gmap string (list Z)) (key : string) : list Z :=
  default [] (m !! key).

(** Some character of [s] is not white space. *)
Definition not_blank (s : string) : Prop :=
  ∃ c, c ∈ chars s ∧ is_space c = false.

(** Three materials rows. *)
Definition demo_materials : list value :=
  [VObj [("factory_id", VNum 7); ("factory_name", VStr "Acme Steel");
         ("role", VStr "Waste Generator"); ("waste_type_name", VStr "Fly Ash")];
   VObj [("factory_id", VNum 9); ("factory_name", VStr "acme steel ");
         ("role", VStr "Receiver"); ("raw_material_name", VStr "Slag")];
   VObj [("factory_id", VNum 3); ("factory_name", VStr "Binder Co");
         ("role", VStr "Receiver"); ("raw_material_name", VStr "fly ash")]].

End MatchPage.

(** ** Cycles page (pages/Cycles.tsx) *)

Module CyclesPage.

(** One cycle names a node that contains [q]. *)
Definition cycle_matches (q : string) (cycle : list string) : bool :=
  existsb (λ node, str_includes q (norm (Some node))) cycle.

Definition filteredCycles (cycles : list (list string)) (query : string)
    : list (list string) :=
  let q := norm (Some query) in
  if negb (truthy q) then cycles
  else List.filter (cycle_matches q) cycles.

(** [selectedIdx !== null ? filteredCycles[selectedIdx] : null]; an index
    past the end reads [undefined], and nothing is selected either way. *)
Definition selected (filteredCycles : list (list string))
    (selectedIdx : option nat) : option (list string) :=
  selectedIdx ≫= λ i, filteredCycles !! i.

End CyclesPage.

(** ** A reader of CSV text

    The exporter has no reader in the code base; this one, which follows
    RFC 4180 with the line feed as record separator, says what a consumer
    of the exported file sees. *)

Module CsvReader.

Inductive state : Type := AtStart | InPlain | InQuoted | AfterQuote.

(** The field so far is [cur], the record so far is [row]. *)
Fixpoint read (st : state) (cur : string) (row : list string) (s : string)
    : list (list string) :=
  match s with
  | EmptyString => [row ++ [cur]]
  | String c s' =>
      match st with
      | InQuoted =>
          if Ascii.eqb c dquote then read AfterQuote cur row s'
          else read InQuoted (cur +:+ String c "") row s'
      | _ =>
          if Ascii.eqb c dquote then
            match st with
            | AtStart => read InQuoted cur row s'
            | AfterQuote => read InQuoted (cur +:+ String dquote "") row s'
            | _ => read InPlain (cur +:+ String c "") row s'
            end
          else if Ascii.eqb c ","%char then read AtStart "" (row ++ [cur]) s'
          else if Ascii.eqb c newline then
            (row ++ [cur]) :: read AtStart "" [] s'
          else read InPlain (cur +:+ String c "") row s'
      end
  end.

Definition read_csv (s : string) : list (list string) := read AtStart "" [] s.

(** The text of a cell, before quoting. *)
Definition cell_text (cell : value) : string := to_String (or_empty cell).

(** The table that [csvDownload] writes: the headers, then the cells of
    each row under the headers. *)
Definition table (rows : list value) (headers : list string)
    : list (list string) :=
  headers ::
  List.map (λ r, List.map (λ h, cell_text (toCell (get_prop r h))) headers) rows.

(** What remains to read starts a new field or record, or is empty. *)
Definition at_separator (rest : string) : Prop :=
  rest = "" ∨ ∃ r, rest = String ","%char r ∨ rest = String newline r.

(** Reading on after a field [cur] has ended. *)
Definition close (cur : string) (row : list string) (rest : string)
    : list (list string) :=
  match rest with
  | EmptyString => [row ++ [cur]]
  | String c r =>
      if Ascii.eqb c ","%char then read AtStart "" (row ++ [cur]) r
      else (row ++ [cur]) :: read AtStart "" [] r
  end.

(** The rest of the text after a line: nothing, or a line feed. *)
Definition after_line (rest : string) : Prop :=
  rest = "" ∨ ∃ r, rest = String newline r.

End CsvReader.

(** * Properties *)

(** ** Lists, strings and objects *)

Section Basics.

Lemma includes_elem_of (l : list string) k : includes l k = true ↔ k ∈ l.
Proof.
  unfold includes. induction l as [|x l IH]; simpl.
  - split; [done | by intros ?%elem_of_nil].
  - by rewrite orb_true_iff, String.eqb_eq, elem_of_cons, IH.
Qed.

Lemma includes_not_elem_of (l : list string) k : includes l k = false ↔ k ∉ l.
Proof. by rewrite <- includes_elem_of, not_true_iff_false. Qed.

(** The boolean filter of the source is the filter by the property it
    tests. *)
Lemma List_filter_Prop {A} (f : A → bool) (P : A → Prop)
    `{∀ x, Decision (P x)} (l : list A) :
  (∀ x, f x = true ↔ P x) → List.filter f l = filter P l.
Proof.
  intros Hf. induction l as [|x l IH]; [done |].
  simpl. rewrite filter_cons. destruct (decide (P x)) as [Hx | Hx].
  - apply Hf in Hx as ->. by rewrite IH.
  - destruct (f x) eqn:E; [by apply Hf in E | exact IH].
Qed.

Lemma elem_of_List_filter {A} (f : A → bool) (l : list A) x :
  x ∈ List.filter f l ↔ x ∈ l ∧ f x = true.
Proof. rewrite !list_elem_of_In. apply filter_In. Qed.

Lemma truthy_ne s : truthy s = true ↔ s ≠ "".
Proof. unfold truthy. by rewrite negb_true_iff, String.eqb_neq. Qed.

Lemma eqb_ne (a b : string) : a ≠ b → String.eqb a b = false.
Proof. intros H. by apply String.eqb_neq. Qed.

Lemma obj_get_set_eq k v (o : obj) : obj_get (obj_set k v o) k = Some v.
Proof.
  induction o as [|[k' v'] o IH]; simpl.
  - by rewrite String.eqb_refl.
  - destruct (String.eqb k' k) eqn:E; simpl; [by rewrite E |].
    destruct (enumerated_before k k'); simpl.
    + by rewrite String.eqb_refl.
    + by rewrite E.
Qed.

Lemma obj_get_set_ne k k' v (o : obj) :
  k ≠ k' → obj_get (obj_set k v o) k' = obj_get o k'.
Proof.
  intros Hne. induction o as [|[k0 v0] o IH]; simpl.
  - by rewrite eqb_ne.
  - destruct (String.eqb k0 k) eqn:E; simpl.
    + apply String.eqb_eq in E as ->. by rewrite eqb_ne.
    + destruct (enumerated_before k k0); simpl.
      * by rewrite eqb_ne.
      * by rewrite IH.
Qed.

(** A key that is no array index goes last when it is new. *)
Lemma obj_set_keys k v (o : obj) :
  array_index k = None →
  (obj_set k v o).*1 = if decide (k ∈ o.*1) then o.*1 else o.*1 ++ [k].
Proof.
  intros Hk.
  assert (Hbefore : ∀ k', enumerated_before k k' = false)
    by (intros k'; unfold enumerated_before; by rewrite Hk).
  induction o as [|[k0 v0] o IH]; cbn [obj_set].
  - rewrite decide_False; [done | apply not_elem_of_nil].
  - rewrite Hbefore.
    destruct (String.eqb k0 k) eqn:E; rewrite !fmap_cons; cbn [fst].
    + apply String.eqb_eq in E as ->. rewrite decide_True; [done | left].
    + apply String.eqb_neq in E. rewrite IH.
      destruct (decide (k ∈ o.*1)) as [Hin | Hin].
      * rewrite decide_True; [done | by right].
      * rewrite decide_False; [done |].
        intros [?|?]%elem_of_cons; congruence.
Qed.

(** Every value bound in [obj_set k v o] is [v] or was bound in [o]. *)
Lemma obj_set_values (P : value → Prop) k v (o : obj) :
  P v → Forall (λ kv, P kv.2) o → Forall (λ kv, P kv.2) (obj_set k v o).
Proof.
  intros Hv. induction 1 as [|[k0 v0] o H0 Ho IH]; simpl.
  - by repeat constructor.
  - destruct (String.eqb k0 k); [by constructor |].
    destruct (enumerated_before k k0); repeat constructor; auto.
Qed.

(** Induction on values, through the elements of arrays and the property
    values of objects. *)
Lemma value_ind (P : value → Prop) :
  P VUndef → P VNull → (∀ b, P (VBool b)) → (∀ n, P (VNum n)) →
  (∀ s, P (VStr s)) →
  (∀ l, Forall P l → P (VArr l)) →
  (∀ o, Forall (λ kv, P kv.2) o → P (VObj o)) →
  ∀ v, P v.
Proof.
  intros Hu Hn Hb Hz Hs Ha Ho.
  fix IH 1. intros [| |b|n|s|l|o].
  - exact Hu.
  - exact Hn.
  - apply Hb.
  - apply Hz.
  - apply Hs.
  - apply Ha. induction l as [|x l IHl]; constructor; [apply IH | exact IHl].
  - apply Ho. induction o as [|[k x] o IHo]; constructor; [apply IH | exact IHo].
Qed.

End Basics.

(** Closed decidable facts, by evaluation. *)
Ltac by_eval := apply (bool_decide_unpack _); vm_compute; exact I.

(** ** Record Composer *)

Section ComposerProperties.

Implicit Types (common g d : obj) (roles : list string).

Lemma with_factory_type_tagged common label :
  tagged_copy common label (with_factory_type common label).
Proof.
  unfold tagged_copy, with_factory_type. split_and!.
  - apply obj_get_set_eq.
  - intros k Hk. by apply obj_get_set_ne.
  - by apply obj_set_keys.
Qed.

Lemma generator_record_intro common g :
  generator_record common g
    (mkRecord (with_factory_type common "Waste Generator") (Some g) None).
Proof. split_and!; [apply with_factory_type_tagged | done..]. Qed.

Lemma receiver_record_intro common d :
  receiver_record common d
    (mkRecord (with_factory_type common "Receiver") None (Some d)).
Proof. split_and!; [apply with_factory_type_tagged | done..]. Qed.

(** Among distinct roles drawn from [x] and [y], the count of those whose
    text contains [sub] is decided by the presence of [x], when [x]
    contains [sub] and [y] does not. *)
Lemma count_roles_set sub x y roles :
  str_includes sub x = true → str_includes sub y = false →
  NoDup roles → Forall (λ r, r = x ∨ r = y) roles →
  count_roles sub roles = if includes roles x then 1 else 0.
Proof.
  intros Hx Hy Hnd Hall. unfold count_roles.
  induction Hnd as [|r roles Hnotin Hnd IH]; [done |].
  apply Forall_cons in Hall as [Hr Hall]. specialize (IH Hall).
  destruct Hr as [-> | ->].
  - rewrite filter_cons_True by done. unfold includes. simpl.
    rewrite String.eqb_refl. simpl. rewrite IH.
    by apply includes_not_elem_of in Hnotin as ->.
  - rewrite filter_cons_False by congruence. rewrite IH.
    unfold includes. simpl.
    destruct (String.eqb x y) eqn:E; [|done].
    apply String.eqb_eq in E. congruence.
Qed.

(** C1: [composePortalRecords] returns the generator record exactly when
    "Waste Generator" is among the roles and the generator detail is
    non-null, followed by the receiver record exactly when "Receiver" is
    among the roles and the receiver detail is non-null.  Each record
    carries a copy of [common] tagged with its role and only its own detail
    section.  When both details are non-null and the roles are a set drawn
    from the two labels, the number of records is the number of roles
    containing "Generator" plus the number containing "Receiver", and every
    record is the record of one of the two roles. *)
Theorem composePortalRecords_records common generator receiver roles :
  (∃ gs rs,
      composePortalRecords common generator receiver roles = gs ++ rs ∧
      match generator with
      | Some g =>
          if decide ("Waste Generator" ∈ roles)
          then ∃ r, gs = [r] ∧ generator_record common g r
          else gs = []
      | None => gs = []
      end ∧
      match receiver with
      | Some d =>
          if decide ("Receiver" ∈ roles)
          then ∃ r, rs = [r] ∧ receiver_record common d r
          else rs = []
      | None => rs = []
      end) ∧
  (∀ g d,
      generator = Some g → receiver = Some d →
      NoDup roles →
      Forall (λ r, r = "Waste Generator" ∨ r = "Receiver") roles →
      length (composePortalRecords common generator receiver roles) =
        count_roles "Generator" roles + count_roles "Receiver" roles ∧
      Forall (λ r, generator_record common g r ∨ receiver_record common d r)
        (composePortalRecords common generator receiver roles)).
Proof.
  split.
  - unfold composePortalRecords.
    exists (if includes roles "Waste Generator" && truthy_detail generator
            then [mkRecord (with_factory_type common "Waste Generator")
                    generator None]
            else []),
           (if includes roles "Receiver" && truthy_detail receiver
            then [mkRecord (with_factory_type common "Receiver") None receiver]
            else []).
    split_and!.
    + by destruct (_ && _), (_ && _).
    + destruct generator as [g|]; [|by rewrite andb_false_r].
      rewrite andb_true_r. case_decide as Hin.
      * apply includes_elem_of in Hin as ->. eexists. split; [done |].
        apply generator_record_intro.
      * by apply includes_not_elem_of in Hin as ->.
    + destruct receiver as [d|]; [|by rewrite andb_false_r].
      rewrite andb_true_r. case_decide as Hin.
      * apply includes_elem_of in Hin as ->. eexists. split; [done |].
        apply receiver_record_intro.
      * by apply includes_not_elem_of in Hin as ->.
  - intros g d -> -> Hnd Hall.
    assert (Hall' : Forall (λ r, r = "Receiver" ∨ r = "Waste Generator") roles)
      by (eapply Forall_impl; [exact Hall | intros ? [?|?]; auto]).
    rewrite (count_roles_set "Generator" "Waste Generator" "Receiver" roles
               eq_refl eq_refl Hnd Hall).
    rewrite (count_roles_set "Receiver" "Receiver" "Waste Generator" roles
               eq_refl eq_refl Hnd Hall').
    pose proof (generator_record_intro common g) as Hg.
    pose proof (receiver_record_intro common d) as Hd.
    unfold composePortalRecords. simpl. rewrite !andb_true_r.
    destruct (includes roles "Waste Generator"),
             (includes roles "Receiver"); simpl; (split; [done |]);
      repeat first [apply Forall_nil_2 | apply Forall_cons_2; [by auto |]].
Qed.

Lemma composePortalRecords_records_witness :
  length (composePortalRecords demo_common (Some demo_generator)
            (Some demo_receiver) demo_roles) =
    count_roles "Generator" demo_roles + count_roles "Receiver" demo_roles ∧
  Forall (λ r, generator_record demo_common demo_generator r ∨
               receiver_record demo_common demo_receiver r)
    (composePortalRecords demo_common (Some demo_generator)
       (Some demo_receiver) demo_roles).
Proof.
  apply (proj2 (composePortalRecords_records demo_common (Some demo_generator)
                  (Some demo_receiver) demo_roles)
           demo_generator demo_receiver eq_refl eq_refl); by_eval.
Defined.

(** A roles array that repeats a label still yields one record for it:
    counting records by roles needs the roles to be a set. *)
Remark composePortalRecords_repeated_role :
  length (composePortalRecords demo_common (Some demo_generator)
            (Some demo_receiver) ["Receiver"; "Receiver"]) = 1 ∧
  count_roles "Generator" ["Receiver"; "Receiver"] +
    count_roles "Receiver" ["Receiver"; "Receiver"] = 2.
Proof. by vm_compute. Qed.

(** C7: [composePortalRecords] is total, and a role whose detail is null
    yields no record: with a null generator detail no record carries a
    GENERATOR section or the "Waste Generator" tag, with a null receiver
    detail no record carries a RECEIVER section or the "Receiver" tag, and
    with both details null the result is empty whatever the roles, in
    particular for both roles. *)
Theorem composePortalRecords_null_detail common detail roles :
  Forall (λ r, GENERATOR r = None ∧
               obj_get (COMMON r) "Factory Type" ≠ Some (VStr "Waste Generator"))
    (composePortalRecords common None detail roles) ∧
  Forall (λ r, RECEIVER r = None ∧
               obj_get (COMMON r) "Factory Type" ≠ Some (VStr "Receiver"))
    (composePortalRecords common detail None roles) ∧
  composePortalRecords common None None roles = [] ∧
  composePortalRecords common None None ["Waste Generator"; "Receiver"] = [].
Proof.
  unfold composePortalRecords. rewrite !andb_false_r. simpl.
  split_and!; [| | done..].
  - destruct (_ && _); repeat constructor; simpl.
    unfold with_factory_type. by rewrite obj_get_set_eq.
  - destruct (_ && _); repeat constructor; simpl.
    unfold with_factory_type. by rewrite obj_get_set_eq.
Qed.

End ComposerProperties.

(** ** Object Flattener *)

Section FlattenerProperties.

(** The loop over the entries of an object is a fold of [flatten_entry]. *)
Lemma flatten_object es prefix out :
  flatten (VObj es) prefix out = foldl (flatten_entry prefix) out es.
Proof.
  revert out. induction es as [|[k v] es IH]; intros out; [done |].
  simpl in *. by rewrite IH.
Qed.

Lemma obj_set_not_plain k v out :
  is_plain_object v = false →
  Forall not_plain out → Forall not_plain (obj_set k v out).
Proof. apply (obj_set_values (λ v, is_plain_object v = false)). Qed.

(** [flatten] only adds bindings to values that are not plain objects. *)
Lemma flatten_not_plain v : ∀ prefix out,
  Forall not_plain out → Forall not_plain (flatten v prefix out).
Proof.
  induction v as [| |b|n|s|l _|o IH] using value_ind; intros prefix out Hout;
    try done; try by apply obj_set_not_plain.
  rewrite flatten_object. revert out Hout.
  induction IH as [|[k x] o Hx _ IHo]; intros out Hout; [done |].
  simpl. apply IHo. unfold flatten_entry. simpl.
  destruct (is_plain_object x) eqn:E.
  - by apply Hx.
  - by apply obj_set_not_plain.
Qed.

Lemma obj_set_defined k v out :
  v ≠ VUndef → Forall defined out → Forall defined (obj_set k v out).
Proof. apply (obj_set_values (λ v, v ≠ VUndef)). Qed.

(** From a value that holds no [undefined], [flatten] only adds bindings
    to values other than [undefined]. *)
Lemma flatten_defined v : ∀ prefix out,
  no_undefined v = true →
  Forall defined out → Forall defined (flatten v prefix out).
Proof.
  induction v as [| |b|n|s|l _|o IH] using value_ind;
    intros prefix out Hv Hout; try done; try by apply obj_set_defined.
  rewrite flatten_object. revert out Hout. simpl in Hv.
  induction IH as [|[k x] o Hx _ IHo]; intros out Hout; [done |].
  simpl in Hv. apply andb_true_iff in Hv as [Hk Ho].
  simpl. apply IHo; [done |]. unfold flatten_entry. simpl.
  destruct (is_plain_object x) eqn:E.
  - by apply Hx.
  - apply obj_set_defined; [|done]. intros ->. done.
Qed.

(** A top-level [null] or [undefined] is caught by the first guard: the
    accumulator comes back unchanged. *)
Remark flatten_nullish prefix out :
  flatten VNull prefix out = out ∧ flatten VUndef prefix out = out.
Proof. done. Qed.



(** C6: no key of the mapping returned by [flatten] is bound to a plain
    object; every value in it is a primitive ([undefined], a boolean, a
    number or a string), [null] or an array, and when the input holds no
    [undefined], as all JSON data, none of them is [undefined]. *)
Theorem flatten_no_plain_object (v : value) (prefix : string) :
  Forall (λ kv, is_plain_object kv.2 = false) (flatten v prefix []) ∧
  Forall (λ kv, match kv.2 with
                | VUndef | VNull | VBool _ | VNum _ | VStr _ | VArr _ => True
                | VObj _ => False
                end) (flatten v prefix []) ∧
  (no_undefined v = true →
   Forall (λ kv, match kv.2 with
                 | VNull | VBool _ | VNum _ | VStr _ | VArr _ => True
                 | VUndef | VObj _ => False
                 end) (flatten v prefix [])).
Proof.
  assert (H : Forall not_plain (flatten v prefix []))
    by (apply flatten_not_plain; constructor).
  split_and!; [exact H | |].
  - eapply Forall_impl; [exact H |].
    intros [k x]. unfold not_plain. simpl. by destruct x.
  - intros Hv.
    assert (Hd : Forall defined (flatten v prefix []))
      by (apply flatten_defined; [done | constructor]).
    eapply Forall_impl; [apply Forall_and; split; [exact H | exact Hd] |].
    intros [k x]. unfold not_plain, defined. simpl. by destruct x; intros [].
Qed.

Lemma flatten_no_plain_object_witness :
  Forall (λ kv, match kv.2 with
                | VNull | VBool _ | VNum _ | VStr _ | VArr _ => True
                | VUndef | VObj _ => False
                end) (flatten demo_match "" []).
Proof.
  apply (proj2 (proj2 (flatten_no_plain_object demo_match ""))).
  reflexivity.
Defined.

End FlattenerProperties.

(** ** Column Unifier *)

Section UnifierProperties.

Implicit Types (rows : list value) (preferred s l : list string) (k : string).

Lemma elem_of_set_add s x k : k ∈ set_add s x ↔ k ∈ s ∨ k = x.
Proof.
  unfold set_add. destruct (includes s x) eqn:E.
  - apply includes_elem_of in E. split; [by left | by intros [?| ->]].
  - by rewrite elem_of_app, list_elem_of_singleton.
Qed.

Lemma NoDup_set_add s x : NoDup s → NoDup (set_add s x).
Proof.
  intros Hs. unfold set_add. destruct (includes s x) eqn:E; [done |].
  apply includes_not_elem_of in E.
  apply NoDup_app. split_and!; [done | | apply NoDup_singleton].
  by intros y Hy ->%list_elem_of_singleton.
Qed.

Lemma elem_of_foldl_set_add l : ∀ s k,
  k ∈ foldl set_add s l ↔ k ∈ s ∨ k ∈ l.
Proof.
  induction l as [|x l IH]; intros s k; simpl.
  - rewrite elem_of_nil. tauto.
  - rewrite IH, elem_of_set_add, elem_of_cons. tauto.
Qed.

Lemma NoDup_foldl_set_add l : ∀ s, NoDup s → NoDup (foldl set_add s l).
Proof.
  induction l as [|x l IH]; intros s Hs; simpl; [done |].
  by apply IH, NoDup_set_add.
Qed.

(** The set gathered by the first loop holds the keys of the object-typed
    rows, each once. *)
Lemma elem_of_gathered rows : ∀ s k,
  k ∈ foldl add_row_keys s rows ↔ k ∈ s ∨ key_of_rows rows k.
Proof.
  unfold key_of_rows.
  induction rows as [|r rows IH]; intros s k; simpl.
  - split; [by left | intros [?|(r & []%elem_of_nil & _)]; done].
  - rewrite IH. unfold add_row_keys.
    destruct (is_object_typed r) eqn:E.
    + rewrite elem_of_foldl_set_add. split.
      * intros [[?|?]|(r' & ? & ? & ?)]; [by left | right..].
        -- exists r. split_and!; [left | done..].
        -- exists r'. split_and!; [by right | done..].
      * intros [?|(r' & [->|?]%elem_of_cons & ? & ?)]; [by do 2 left | |].
        -- left. by right.
        -- right. by exists r'.
    + split.
      * intros [?|(r' & ? & ? & ?)]; [by left | right].
        exists r'. split_and!; [by right | done..].
      * intros [?|(r' & [->|?]%elem_of_cons & ? & ?)]; [by left | congruence |].
        right. by exists r'.
Qed.

Lemma NoDup_gathered rows : ∀ s, NoDup s → NoDup (foldl add_row_keys s rows).
Proof.
  induction rows as [|r rows IH]; intros s Hs; simpl; [done |].
  apply IH. unfold add_row_keys. destruct (is_object_typed r); [|done].
  by apply NoDup_foldl_set_add.
Qed.

Lemma gathered_object_typed rows : ∀ s,
  foldl add_row_keys s (List.filter is_object_typed rows) =
  foldl add_row_keys s rows.
Proof.
  induction rows as [|r rows IH]; intros s; simpl; [done |].
  destruct (is_object_typed r) eqn:E; simpl; [done |].
  rewrite IH. unfold add_row_keys at 3. by rewrite E.
Qed.

(** The result, in terms of the gathered set. *)
Lemma unionKeysWithPreferred_unfold rows preferred :
  unionKeysWithPreferred rows preferred =
    filter (key_of_rows rows) preferred ++
    sort_strings (filter (λ k, k ∉ preferred) (foldl add_row_keys [] rows)).
Proof.
  unfold unionKeysWithPreferred. f_equal.
  - apply List_filter_Prop. intros k.
    rewrite includes_elem_of, elem_of_gathered, elem_of_nil. tauto.
  - f_equal. apply List_filter_Prop. intros k.
    by rewrite negb_true_iff, includes_not_elem_of.
Qed.

Lemma elem_of_rest rows preferred k :
  k ∈ sort_strings (filter (λ k, k ∉ preferred) (foldl add_row_keys [] rows)) ↔
  key_of_rows rows k ∧ k ∉ preferred.
Proof.
  unfold sort_strings. rewrite merge_sort_Permutation.
  rewrite list_elem_of_filter, elem_of_gathered, elem_of_nil. tauto.
Qed.

Lemma NoDup_rest rows preferred :
  NoDup (sort_strings (filter (λ k, k ∉ preferred) (foldl add_row_keys [] rows))).
Proof.
  unfold sort_strings. rewrite merge_sort_Permutation.
  apply NoDup_filter, NoDup_gathered, NoDup_nil_2.
Qed.

(** C5: [unionKeysWithPreferred] returns the preferred keys that are keys
    of some object-typed row, in the order of [preferred], followed by the
    remaining keys of the union in ascending order; rows that are not
    object-typed contribute nothing. *)
Theorem unionKeysWithPreferred_order rows preferred :
  (∃ rest,
      unionKeysWithPreferred rows preferred =
        filter (key_of_rows rows) preferred ++ rest ∧
      StronglySorted String.le rest ∧
      NoDup rest ∧
      ∀ k, k ∈ rest ↔ key_of_rows rows k ∧ k ∉ preferred) ∧
  unionKeysWithPreferred (List.filter is_object_typed rows) preferred =
    unionKeysWithPreferred rows preferred ∧
  unionKeysWithPreferred
    [VObj [("x", VNum 1); ("y", VNum 2)]; VObj [("y", VNum 3); ("z", VNum 4)]]
    ["z"] = ["z"; "x"; "y"].
Proof.
  split_and!.
  - eexists. split_and!.
    + apply unionKeysWithPreferred_unfold.
    + apply StronglySorted_merge_sort; apply _.
    + apply NoDup_rest.
    + apply elem_of_rest.
  - unfold unionKeysWithPreferred. by rewrite gathered_object_typed.
  - by vm_compute.
Qed.

Lemma multiplicity_app k l1 l2 :
  multiplicity k (l1 ++ l2) = multiplicity k l1 + multiplicity k l2.
Proof. unfold multiplicity. by rewrite filter_app, length_app. Qed.

Lemma multiplicity_not_elem_of k l : k ∉ l → multiplicity k l = 0.
Proof.
  intros Hk. unfold multiplicity.
  induction l as [|x l IH]; [done |].
  apply not_elem_of_cons in Hk as [Hx Hl].
  rewrite filter_cons_False by congruence. by apply IH.
Qed.

Lemma multiplicity_NoDup k l : NoDup l → k ∈ l → multiplicity k l = 1.
Proof.
  induction 1 as [|x l Hx Hl IH]; intros Hk; [by apply elem_of_nil in Hk |].
  unfold multiplicity. destruct (decide (x = k)) as [-> | Hne].
  - rewrite filter_cons_True by done. simpl. f_equal.
    exact (multiplicity_not_elem_of k l Hx).
  - rewrite filter_cons_False by done.
    apply elem_of_cons in Hk as [? | Hk]; [congruence | by apply IH].
Qed.

Lemma multiplicity_filter (P : string → Prop) `{∀ x, Decision (P x)} k l :
  multiplicity k (filter P l) = if decide (P k) then multiplicity k l else 0.
Proof.
  unfold multiplicity. rewrite list_filter_filter.
  destruct (decide (P k)) as [Hk | Hk].
  - f_equal. apply list_filter_iff. intros x.
    split; [tauto | intros ->; tauto].
  - induction l as [|x l IH]; [done |].
    rewrite filter_cons_False; [exact IH | intros []; subst; tauto].
Qed.

(** C9: a key of the union occurs in the output once when it is not in
    [preferred], and as many times as it occurs in [preferred] otherwise; a
    string that is no key of the union does not occur.  So a duplicate-free
    [preferred] gives a duplicate-free output whose elements are exactly
    the union, and a repeated preferred key that is present is repeated in
    the output. *)
Theorem unionKeysWithPreferred_multiplicity rows preferred k :
  multiplicity k (unionKeysWithPreferred rows preferred) =
    (if decide (key_of_rows rows k)
     then if decide (k ∈ preferred) then multiplicity k preferred else 1
     else 0) ∧
  (NoDup preferred →
     NoDup (unionKeysWithPreferred rows preferred) ∧
     ∀ k', k' ∈ unionKeysWithPreferred rows preferred ↔ key_of_rows rows k') ∧
  unionKeysWithPreferred [VObj [("x", VNum 1)]] ["x"; "x"] = ["x"; "x"] ∧
  multiplicity "x" (unionKeysWithPreferred [VObj [("x", VNum 1)]] ["x"; "x"]) = 2.
Proof.
  rewrite unionKeysWithPreferred_unfold. split_and!.
  - rewrite multiplicity_app, multiplicity_filter.
    destruct (decide (key_of_rows rows k)) as [Hk | Hk].
    + destruct (decide (k ∈ preferred)) as [Hp | Hp].
      * rewrite (multiplicity_not_elem_of k (sort_strings _)); [lia |].
        rewrite elem_of_rest. tauto.
      * rewrite (multiplicity_not_elem_of k preferred Hp).
        rewrite multiplicity_NoDup; [done | apply NoDup_rest |].
        by apply elem_of_rest.
    + rewrite (multiplicity_not_elem_of k (sort_strings _)); [done |].
      rewrite elem_of_rest. tauto.
  - intros Hnd. split.
    + apply NoDup_app. split_and!.
      * by apply NoDup_filter.
      * intros x [_ Hx]%list_elem_of_filter [_ Hx']%elem_of_rest. done.
      * apply NoDup_rest.
    + intros k'. rewrite elem_of_app, list_elem_of_filter, elem_of_rest.
      destruct (decide (k' ∈ preferred)); tauto.
  - by vm_compute.
  - by vm_compute.
Qed.

Lemma unionKeysWithPreferred_multiplicity_witness :
  NoDup (unionKeysWithPreferred [VObj [("x", VNum 1); ("y", VNum 2)]] ["y"]) ∧
  ∀ k', k' ∈ unionKeysWithPreferred [VObj [("x", VNum 1); ("y", VNum 2)]] ["y"] ↔
        key_of_rows [VObj [("x", VNum 1); ("y", VNum 2)]] k'.
Proof.
  apply (proj1 (proj2 (unionKeysWithPreferred_multiplicity
                         [VObj [("x", VNum 1); ("y", VNum 2)]] ["y"] "x"))).
  by_eval.
Defined.

End UnifierProperties.

(** ** CSV Exporter *)

Section CsvProperties.

Implicit Types (s : string) (cell r : value) (h : string).

Lemma needs_quoting_special s : needs_quoting s = true ↔ has_special s.
Proof.
  unfold has_special. induction s as [|c s IH]; simpl.
  - rewrite !elem_of_nil. split; [done | tauto].
  - rewrite orb_true_iff, IH, !elem_of_cons. unfold csv_special.
    rewrite !orb_true_iff, !Ascii.eqb_eq.
    split; [intros [[[->| ->]| ->]|[?|[?|?]]] | intros [[<-|?]|[[<-|?]|[<-|?]]]];
      tauto.
Qed.

Lemma double_quotes_chars s : chars (double_quotes s) = doubled s.
Proof.
  unfold doubled. induction s as [|c s IH]; [done |].
  simpl. destruct (Ascii.eqb c dquote) eqn:E.
  - apply Ascii.eqb_eq in E as ->. rewrite decide_True by done.
    simpl. by rewrite IH.
  - apply Ascii.eqb_neq in E. rewrite decide_False by done.
    simpl. by rewrite IH.
Qed.

(** A field is the quoted form exactly when the text needs quoting: a text
    that starts with a double quote needs quoting. *)
Lemma field_quoted_iff cell :
  field cell = in_quotes (double_quotes (to_String (or_empty cell))) ↔
  has_special (to_String (or_empty cell)).
Proof.
  rewrite <- needs_quoting_special. unfold field, in_quotes.
  destruct (needs_quoting _) eqn:E; [done |].
  split; [|done]. intros Heq. rewrite Heq in E. done.
Qed.

Lemma field_verbatim cell :
  ¬ has_special (to_String (or_empty cell)) →
  field cell = to_String (or_empty cell).
Proof.
  rewrite <- needs_quoting_special. unfold field.
  by destruct (needs_quoting _).
Qed.

(** C3: the CSV text is the header line and one line per row, the lines
    joined by line feeds and the fields of a line by commas; the field of a
    cell, header cells included, is the stringified cell between double
    quotes with its double quotes doubled exactly when the stringified cell
    contains a comma, a double quote or a line feed, and is the stringified
    cell itself otherwise. *)
Theorem csvDownload_quoting :
  (∀ rows headers filename, rows ≠ [] →
     ∃ d, csvDownload rows headers filename = Some d ∧
          file_name d = filename ∧
          blob_text d =
            String.concat (String newline "")
              (List.map (λ cells, String.concat "," (List.map field cells))
                 (List.map VStr headers ::
                  List.map (λ r, List.map (λ h, toCell (get_prop r h)) headers)
                    rows))) ∧
  (∀ cell,
     (field cell = in_quotes (double_quotes (to_String (or_empty cell))) ↔
      has_special (to_String (or_empty cell))) ∧
     (¬ has_special (to_String (or_empty cell)) →
      field cell = to_String (or_empty cell)) ∧
     chars (double_quotes (to_String (or_empty cell))) =
       doubled (to_String (or_empty cell))) ∧
  (∀ h, to_String (or_empty (VStr h)) = h) ∧
  csv_text [demo_row] ["a"; "b"] =
    "a,b" +:+ String newline (in_quotes "x,y" +:+ ",1").
Proof.
  split_and!.
  - intros [|r rows] headers filename Hne; [done |].
    eexists. split_and!; reflexivity.
  - intros cell. split_and!.
    + apply field_quoted_iff.
    + apply field_verbatim.
    + apply double_quotes_chars.
  - done.
  - by vm_compute.
Qed.

Lemma csvDownload_quoting_witness :
  (∃ d, csvDownload [demo_row] ["a"; "b"] "materials_full.csv" = Some d ∧
        file_name d = "materials_full.csv" ∧
        blob_text d =
          String.concat (String newline "")
            (List.map (λ cells, String.concat "," (List.map field cells))
               (List.map VStr ["a"; "b"] ::
                List.map (λ r, List.map (λ h, toCell (get_prop r h)) ["a"; "b"])
                  [demo_row]))) ∧
  field (VNum 1) = to_String (or_empty (VNum 1)).
Proof.
  split.
  - apply (proj1 csvDownload_quoting). discriminate.
  - apply (proj1 (proj2 csvDownload_quoting) (VNum 1)). by_eval.
Defined.

(** C8: with no rows [csvDownload] returns before building any text: no
    Blob is created and no download is triggered, whatever the headers. *)
Theorem csvDownload_no_rows headers filename :
  csvDownload [] headers filename = None ∧
  csvDownload [] ["a"] filename = None.
Proof. done. Qed.

(** C10: a header "__proto__" that a row does not hold is not read as
    missing: the row answers with its prototype, and the field is the text
    of an empty object instead of the empty string.  Such a header arises
    as soon as another row holds that key. *)
Theorem csvDownload_inherited_cell :
  obj_get [("a", VNum 2)] "__proto__" = None ∧
  get_prop (VObj [("a", VNum 2)]) "__proto__" = VObj [] ∧
  field (toCell (get_prop (VObj [("a", VNum 2)]) "__proto__")) = "{}" ∧
  field (toCell VNull) = "" ∧
  unionKeysWithPreferred
    [VObj [("__proto__", VNum 1)]; VObj [("a", VNum 2)]] [] =
    ["__proto__"; "a"] ∧
  csv_text [VObj [("__proto__", VNum 1)]; VObj [("a", VNum 2)]]
    ["__proto__"; "a"] =
    "__proto__,a" +:+ String newline "" +:+
    "1," +:+ String newline "" +:+
    "{},2".
Proof. split_and!; by vm_compute. Qed.

(** X23: on an object row, a header whose key is bound to [undefined], or
    is absent and is not "__proto__", gives the empty field, as a null
    value does; the absent header "__proto__" gives the text of an empty
    object; and a null or [undefined] row gives the empty field under
    every header. *)
Theorem csvDownload_missing_cell :
  (∀ o h, obj_get o h = Some VUndef →
          field (toCell (get_prop (VObj o) h)) = "") ∧
  (∀ o h, obj_get o h = None → h ≠ "__proto__" →
          field (toCell (get_prop (VObj o) h)) = "") ∧
  (∀ o, obj_get o "__proto__" = None →
        field (toCell (get_prop (VObj o) "__proto__")) = "{}") ∧
  (∀ h, field (toCell (get_prop VNull h)) = "" ∧
        field (toCell (get_prop VUndef h)) = "") ∧
  field (toCell VNull) = "".
Proof.
  split_and!.
  - intros o h H. simpl. by rewrite H.
  - intros o h H Hne. simpl. rewrite H.
    by rewrite (eqb_ne h "__proto__").
  - intros o H. simpl. by rewrite H.
  - done.
  - done.
Qed.

Lemma csvDownload_missing_cell_witness :
  field (toCell (get_prop (VObj [("a", VNum 1); ("c", VUndef)]) "c")) = "" ∧
  field (toCell (get_prop demo_row "c")) = "" ∧
  field (toCell (get_prop demo_row "__proto__")) = "{}".
Proof.
  split_and!.
  - by apply (proj1 csvDownload_missing_cell).
  - by apply (proj1 (proj2 csvDownload_missing_cell)).
  - by apply (proj1 (proj2 (proj2 csvDownload_missing_cell))).
Defined.

End CsvProperties.

(** ** Client Graph Builder *)

Section GraphProperties.

Implicit Types (graph : gmap string (list string)) (g r : MaterialsRow).
Implicit Types (rows recs gens : list MaterialsRow) (G R : string).

Lemma push_not_nil (ns : list string) R : push ns R ≠ [].
Proof.
  unfold push. destruct (includes ns R) eqn:E.
  - intros ->. done.
  - by destruct ns.
Qed.

(** With no inherited name among its keys, the graph takes an edge from
    [G'] unless [G'] is an inherited name, and then the construction
    throws. *)
Lemma add_edge_spec graph G' R :
  no_inherited_key graph →
  add_edge graph G' R =
    if inherited G' then None
    else Some (<[G' := push (nbrs graph G') R]> graph).
Proof.
  intros Hk. unfold add_edge, graph_get, nbrs.
  destruct (graph !! G') as [ns|] eqn:E.
  - destruct (inherited G') eqn:Ei; [by rewrite (Hk _ Ei) in E |].
    simpl. by rewrite E.
  - destruct (inherited G') eqn:Ei; simpl.
    + by rewrite E.
    + by rewrite lookup_insert_eq, insert_insert_eq.
Qed.

(** Recording an edge from [G'] pushes onto the list of [G'] and leaves
    the other lists alone. *)
Lemma record_nbrs graph G' R G :
  nbrs (<[G' := push (nbrs graph G') R]> graph) G =
    if decide (G = G') then push (nbrs graph G') R else nbrs graph G.
Proof.
  unfold nbrs at 1. destruct (decide (G = G')) as [-> | Hne].
  - by rewrite lookup_insert_eq.
  - by rewrite lookup_insert_ne.
Qed.

Lemma record_no_empty graph G' R :
  no_empty graph → no_empty (<[G' := push (nbrs graph G') R]> graph).
Proof.
  intros Hwf G. rewrite lookup_insert. case_decide; [|apply Hwf].
  intros [= Hnil]. by apply push_not_nil in Hnil.
Qed.

Lemma record_no_inherited_key graph G' R :
  inherited G' = false →
  no_inherited_key graph →
  no_inherited_key (<[G' := push (nbrs graph G') R]> graph).
Proof.
  intros Hi Hk G HG. rewrite lookup_insert_ne by congruence. by apply Hk.
Qed.

Lemma offers_of_cons g r recs :
  offers_of g (r :: recs) = offers_of g [r] ++ offers_of g recs.
Proof. unfold offers_of. simpl. by rewrite app_nil_r. Qed.

Lemma offers_of_one g r :
  offers_of g [r] =
    if decide (norm (waste_type_name g) = norm (raw_material_name r) ∧
               label r ≠ label g)
    then [label r] else [].
Proof. unfold offers_of. simpl. by rewrite app_nil_r. Qed.

(** One turn of the inner loop: it throws exactly when it has an edge to
    record from an inherited name, and otherwise pushes what row [g]
    offers. *)
Lemma visit_spec g graph r :
  no_inherited_key graph → no_empty graph →
  match visit g graph r with
  | Some graph' =>
      no_inherited_key graph' ∧ no_empty graph' ∧
      (offers_of g [r] ≠ [] → inherited (label g) = false) ∧
      ∀ G, nbrs graph' G =
             if decide (G = label g)
             then foldl push (nbrs graph G) (offers_of g [r])
             else nbrs graph G
  | None => inherited (label g) = true ∧ offers_of g [r] ≠ []
  end.
Proof.
  intros Hk Hwf. unfold visit, same_material. rewrite offers_of_one.
  destruct (String.eqb (norm _) (norm _)) eqn:Em; simpl.
  - apply String.eqb_eq in Em.
    destruct (String.eqb (label g) (label r)) eqn:El.
    + apply String.eqb_eq in El.
      rewrite decide_False by (intros [_ Hl]; congruence).
      split_and!; try done. intros G. by case_decide.
    + apply String.eqb_neq in El.
      rewrite decide_True by (split; congruence).
      rewrite add_edge_spec by done.
      destruct (inherited (label g)) eqn:Ei; [done |].
      split_and!; [by apply record_no_inherited_key | by apply record_no_empty
                  | done |].
      intros G. rewrite record_nbrs. by case_decide; subst.
  - apply String.eqb_neq in Em.
    rewrite decide_False by (intros [Hm _]; congruence).
    split_and!; try done. intros G. by case_decide.
Qed.

(** The inner loop, for generator row [g]. *)
Lemma inner_spec g recs : ∀ graph,
  no_inherited_key graph → no_empty graph →
  match try_fold (visit g) graph recs with
  | Some graph' =>
      no_inherited_key graph' ∧ no_empty graph' ∧
      (offers_of g recs ≠ [] → inherited (label g) = false) ∧
      ∀ G, nbrs graph' G =
             if decide (G = label g)
             then foldl push (nbrs graph G) (offers_of g recs)
             else nbrs graph G
  | None => inherited (label g) = true ∧ offers_of g recs ≠ []
  end.
Proof.
  induction recs as [|r recs IH]; intros graph Hk Hwf.
  - simpl. split_and!; try done. intros G. by case_decide.
  - cbn [try_fold]. rewrite offers_of_cons.
    pose proof (visit_spec g graph r Hk Hwf) as Hv.
    destruct (visit g graph r) as [graph1|].
    + destruct Hv as (Hk1 & Hwf1 & Hi1 & Hn1).
      specialize (IH graph1 Hk1 Hwf1).
      destruct (try_fold (visit g) graph1 recs) as [graph2|].
      * destruct IH as (Hk2 & Hwf2 & Hi2 & Hn2). split_and!; [done.. | |].
        -- intros Hne. destruct (offers_of g [r]) eqn:E1; [|by apply Hi1].
           apply Hi2. by rewrite app_nil_l in Hne.
        -- intros G. rewrite Hn2, Hn1, foldl_app. by case_decide.
      * destruct IH as [Hi Hne]. split; [done |].
        intros [_ ?]%app_eq_nil. done.
    + destruct Hv as [Hi Hne]. split; [done |].
      intros [? _]%app_eq_nil. done.
Qed.

(** The outer loop. *)
Lemma outer_spec recs gens : ∀ graph,
  no_inherited_key graph → no_empty graph →
  match try_fold (λ graph g, try_fold (visit g) graph recs) graph gens with
  | Some graph' =>
      no_inherited_key graph' ∧ no_empty graph' ∧
      (∀ g, g ∈ gens → offers_of g recs ≠ [] → inherited (label g) = false) ∧
      ∀ G, nbrs graph' G =
             foldl push (nbrs graph G)
               (g ← gens; if decide (label g = G) then offers_of g recs else [])
  | None =>
      ∃ g, g ∈ gens ∧ inherited (label g) = true ∧ offers_of g recs ≠ []
  end.
Proof.
  induction gens as [|g gens IH]; intros graph Hk Hwf.
  - simpl. split_and!; try done. by intros g ?%elem_of_nil.
  - cbn [try_fold].
    pose proof (inner_spec g recs graph Hk Hwf) as Hin.
    destruct (try_fold (visit g) graph recs) as [graph1|].
    + destruct Hin as (Hk1 & Hwf1 & Hi1 & Hn1).
      specialize (IH graph1 Hk1 Hwf1).
      destruct (try_fold _ graph1 gens) as [graph2|].
      * destruct IH as (Hk2 & Hwf2 & Hi2 & Hn2). split_and!; [done.. | |].
        -- intros g' [-> | Hg']%elem_of_cons; [done | by apply Hi2].
        -- intros G. rewrite Hn2, Hn1, bind_cons, foldl_app.
           destruct (decide (label g = G)) as [<- | Hne].
           ++ by rewrite decide_True.
           ++ by rewrite decide_False.
      * destruct IH as (g' & Hg' & Hi & Hne). exists g'.
        split; [by apply elem_of_cons; right | done].
    + destruct Hin as [Hi Hne]. exists g.
      split; [by apply elem_of_cons; left | done].
Qed.

(** Guarded pushes keep the first occurrence of each label. *)
Lemma foldl_push (l : list string) : ∀ acc,
  foldl push acc l = acc ++ filter (λ y, y ∉ acc) (first_occurrences l).
Proof.
  induction l as [|x l IH]; intros acc; simpl; [by rewrite app_nil_r |].
  rewrite IH. unfold push. destruct (includes acc x) eqn:E.
  - apply includes_elem_of in E.
    rewrite filter_cons_False by tauto.
    rewrite list_filter_filter. f_equal. apply list_filter_iff.
    intros y. split; [intros Hy; split; [done | congruence] | tauto].
  - apply includes_not_elem_of in E.
    rewrite filter_cons_True by done.
    rewrite <- app_assoc. simpl. do 2 f_equal.
    rewrite list_filter_filter. apply list_filter_iff.
    intros y. rewrite elem_of_app, list_elem_of_singleton. tauto.
Qed.

Lemma filter_not_elem_of_nil (l : list string) : filter (λ y, y ∉ []) l = l.
Proof.
  induction l as [|x l IH]; [done |].
  rewrite filter_cons_True by apply not_elem_of_nil. by rewrite IH.
Qed.

Lemma NoDup_first_occurrences (l : list string) : NoDup (first_occurrences l).
Proof.
  induction l as [|x l IH]; simpl; [apply NoDup_nil_2 |].
  apply NoDup_cons. split; [|by apply NoDup_filter].
  rewrite list_elem_of_filter. tauto.
Qed.

Lemma elem_of_first_occurrences (l : list string) x :
  x ∈ first_occurrences l ↔ x ∈ l.
Proof.
  induction l as [|y l IH]; simpl; [done |].
  rewrite !elem_of_cons, list_elem_of_filter, IH.
  destruct (decide (x = y)); tauto.
Qed.

Lemma norm_Some t : norm (Some t) = toLowerCase (trim t).
Proof. unfold norm. by destruct t. Qed.

Lemma truthy_norm x :
  truthy (norm x) = true ↔ ∃ t, x = Some t ∧ toLowerCase (trim t) ≠ "".
Proof.
  rewrite truthy_ne. destruct x as [t|].
  - rewrite norm_Some. split; [by exists t | by intros (? & [= <-] & ?)].
  - split; [done | by intros (? & [=] & _)].
Qed.

Lemma is_gen_spec g :
  is_gen g = true ↔
  str_includes "generator" (toLowerCase (trim (role g))) = true ∧
  ∃ w, waste_type_name g = Some w ∧ toLowerCase (trim w) ≠ "".
Proof. unfold is_gen. by rewrite andb_true_iff, truthy_norm, norm_Some. Qed.

Lemma is_rec_spec r :
  is_rec r = true ↔
  str_includes "receiver" (toLowerCase (trim (role r))) = true ∧
  ∃ m, raw_material_name r = Some m ∧ toLowerCase (trim m) ≠ "".
Proof. unfold is_rec. by rewrite andb_true_iff, truthy_norm, norm_Some. Qed.

Lemma elem_of_offers_of g recs R :
  R ∈ offers_of g recs ↔
  ∃ r, r ∈ recs ∧ norm (waste_type_name g) = norm (raw_material_name r) ∧
       label r ≠ label g ∧ label r = R.
Proof.
  unfold offers_of. rewrite list_elem_of_bind. split.
  - intros (r & HR & Hr). case_decide as Hc; [|by apply elem_of_nil in HR].
    apply list_elem_of_singleton in HR as ->. exists r. tauto.
  - intros (r & Hr & Hm & Hl & <-). exists r. split; [|done].
    rewrite decide_True by done. by apply list_elem_of_singleton.
Qed.

Lemma elem_of_offers rows G R : R ∈ offers rows G ↔ edge_pair rows G R.
Proof.
  unfold offers, edge_pair. rewrite list_elem_of_bind. split.
  - intros (g & HR & [Hg Hgen]%elem_of_List_filter).
    case_decide as HG; [|by apply elem_of_nil in HR].
    apply elem_of_offers_of in HR
      as (r & [Hr Hrec]%elem_of_List_filter & Hm & Hl & HlR).
    apply is_gen_spec in Hgen as (Hrole & w & Hw & Hwne).
    apply is_rec_spec in Hrec as (Hrole' & m & Hm' & Hmne).
    exists g, r, w, m. rewrite Hw, Hm', !norm_Some in Hm.
    split_and!; try done. congruence.
  - intros (g & r & w & m & Hg & Hr & Hrole & Hw & Hwne & HG & Hrole' & Hm &
            Hmne & HR & Heq & Hne).
    exists g. split.
    + rewrite decide_True by done. apply elem_of_offers_of.
      exists r. split_and!; try done.
      * apply elem_of_List_filter. split; [done |].
        apply is_rec_spec. eauto.
      * by rewrite Hw, Hm, !norm_Some.
      * congruence.
    + apply elem_of_List_filter. split; [done |].
      apply is_gen_spec. eauto.
Qed.

Lemma empty_graph_ok :
  no_inherited_key (∅ : gmap string (list string)) ∧
  no_empty (∅ : gmap string (list string)).
Proof. split; intros G; by rewrite ?lookup_empty. Qed.

(** The construction throws exactly when some edge starts at an inherited
    name. *)
Lemma buildGraph_None rows :
  buildGraph rows = None ↔ ∃ G R, edge_pair rows G R ∧ inherited G = true.
Proof.
  destruct empty_graph_ok as [Hk Hwf].
  pose proof (outer_spec (List.filter is_rec rows) (List.filter is_gen rows)
                ∅ Hk Hwf) as Hout.
  fold (buildGraph rows) in Hout.
  destruct (buildGraph rows) as [graph|].
  - destruct Hout as (_ & _ & Hi & _). split; [done |].
    intros (G & R & HR%elem_of_offers & HG). exfalso.
    unfold offers in HR. apply list_elem_of_bind in HR as (g & HR & Hg).
    case_decide as Hl; [|by apply elem_of_nil in HR]. subst G.
    assert (offers_of g (List.filter is_rec rows) ≠ []) as Hne
      by (intros E; rewrite E in HR; by apply elem_of_nil in HR).
    specialize (Hi g Hg Hne). congruence.
  - destruct Hout as (g & Hg & Hi & Hne). split; [|done]. intros _.
    destruct (offers_of g (List.filter is_rec rows)) as [|R l] eqn:E; [done |].
    exists (label g), R. split; [|done]. apply elem_of_offers.
    unfold offers. apply list_elem_of_bind. exists g. split; [|done].
    rewrite decide_True by done. rewrite E. apply elem_of_cons. by left.
Qed.

(** The graph, key by key. *)
Lemma buildGraph_lookup rows graph G :
  buildGraph rows = Some graph →
  graph !! G =
    match first_occurrences (offers rows G) with
    | [] => None
    | ns => Some ns
    end.
Proof.
  intros Hb. destruct empty_graph_ok as [Hk Hwf].
  pose proof (outer_spec (List.filter is_rec rows) (List.filter is_gen rows)
                ∅ Hk Hwf) as Hout.
  fold (buildGraph rows) in Hout. rewrite Hb in Hout.
  destruct Hout as (_ & Hwf' & _ & Hn). specialize (Hn G).
  fold (offers rows G) in Hn.
  rewrite foldl_push in Hn. unfold nbrs in Hn. rewrite lookup_empty in Hn.
  simpl in Hn. rewrite filter_not_elem_of_nil in Hn.
  specialize (Hwf' G).
  destruct (graph !! G) as [ns|]; simpl in Hn; rewrite <- Hn.
  - by destruct ns.
  - done.
Qed.

(** C2: a generator whose display name is a name that every object
    inherits makes the construction throw instead of recording the edge:
    with the generator called constructor, or toString, no graph is built,
    while the same rows under the name A give the one edge from A to B. *)
Theorem buildGraph_inherited_label :
  buildGraph [mkRow 1 "constructor" "Waste Generator" (Some "Fly Ash") None;
              mkRow 2 "B" "Receiver" None (Some "fly ash")] = None ∧
  buildGraph [mkRow 1 "toString" "Waste Generator" (Some "Fly Ash") None;
              mkRow 2 "B" "Receiver" None (Some "fly ash")] = None ∧
  buildGraph [mkRow 1 "A" "Waste Generator" (Some "Fly Ash") None;
              mkRow 2 "B" "Receiver" None (Some "fly ash")] =
    Some {[ "A" := ["B"] ]}.
Proof. split_and!; by vm_compute. Qed.

(** X22: the construction throws exactly when some generator-like row and
    some receiver-like row with another label name the same material and
    the label of the generator is a name inherited from [Object.prototype].
    Otherwise receiver label [R] is a neighbour of generator label [G]
    exactly when some generator-like row labelled [G] and some
    receiver-like row labelled [R] name the same material after trimming
    and lower-casing, and [G] differs from [R]; every neighbour list is
    duplicate-free and lists its labels in the order of their first
    insertion.  The name A on both sides of the same material gives the
    empty graph. *)
Theorem buildGraph_edges :
  (∀ rows,
     buildGraph rows = None ↔ ∃ G R, edge_pair rows G R ∧ inherited G = true) ∧
  (∀ rows graph G R,
     buildGraph rows = Some graph →
     (∃ ns, graph !! G = Some ns ∧ R ∈ ns) ↔ edge_pair rows G R) ∧
  (∀ rows graph G ns,
     buildGraph rows = Some graph →
     graph !! G = Some ns →
     NoDup ns ∧ ns = first_occurrences (offers rows G)) ∧
  (∀ i j, buildGraph [mkRow i "A" "Waste Generator" (Some "Fly Ash") None;
                      mkRow j "A" "Receiver" None (Some "Fly Ash")] = Some ∅).
Proof.
  split_and!.
  - apply buildGraph_None.
  - intros rows graph G R Hb.
    rewrite <- elem_of_offers, (buildGraph_lookup rows graph G Hb).
    rewrite <- (elem_of_first_occurrences (offers rows G)).
    destruct (first_occurrences (offers rows G)) as [|x l].
    + split; [by intros (? & [=] & _) | by intros ?%elem_of_nil].
    + split; [by intros (? & [= <-] & ?) | eauto].
  - intros rows graph G ns Hb. rewrite (buildGraph_lookup rows graph G Hb).
    pose proof (NoDup_first_occurrences (offers rows G)) as Hnd.
    destruct (first_occurrences (offers rows G)) as [|x l]; [done |].
    by intros [= <-].
  - intros i j. by vm_compute.
Qed.

Lemma buildGraph_edges_witness :
  buildGraph demo_rows = Some {[ "A" := ["B"; "C"] ]} ∧
  NoDup ["B"; "C"] ∧ ["B"; "C"] = first_occurrences (offers demo_rows "A").
Proof.
  split; [by vm_compute |].
  apply (proj1 (proj2 (proj2 buildGraph_edges)) demo_rows
           {[ "A" := ["B"; "C"] ]} "A" ["B"; "C"]); by vm_compute.
Defined.

End GraphProperties.

(** * Further properties *)

(** ** Checkbox group *)

Section SelectionProperties.

Implicit Types (value clicks : list string) (o : string).

Lemma includes_app (l1 l2 : list string) k :
  includes (l1 ++ l2) k = includes l1 k || includes l2 k.
Proof. unfold includes. apply existsb_app. Qed.

Lemma filter_ne_spec value o :
  List.filter (λ v, negb (String.eqb v o)) value = filter (λ v, v ≠ o) value.
Proof.
  apply List_filter_Prop. intros x.
  by rewrite negb_true_iff, String.eqb_neq.
Qed.

Lemma elem_of_handleToggle value o o' :
  o' ∈ Selection.handleToggle value o ↔
  if decide (o' = o) then o ∉ value else o' ∈ value.
Proof.
  unfold Selection.handleToggle. destruct (includes value o) eqn:E.
  - apply includes_elem_of in E.
    rewrite filter_ne_spec, list_elem_of_filter.
    case_decide; [subst; tauto | tauto].
  - apply includes_not_elem_of in E.
    rewrite elem_of_app, list_elem_of_singleton.
    case_decide; [subst; tauto | tauto].
Qed.

Lemma checked_handleToggle value o o' :
  Selection.checked (Selection.handleToggle value o) o' =
    if String.eqb o' o then negb (Selection.checked value o)
    else Selection.checked value o'.
Proof.
  unfold Selection.checked.
  pose proof (elem_of_handleToggle value o o') as H.
  rewrite <- includes_elem_of in H.
  destruct (String.eqb o' o) eqn:E.
  - apply String.eqb_eq in E as ->. rewrite decide_True in H by done.
    rewrite <- includes_not_elem_of in H.
    destruct (includes value o), (includes _ o); simpl; intuition congruence.
  - apply String.eqb_neq in E. rewrite decide_False in H by done.
    rewrite <- includes_elem_of in H.
    destruct (includes value o'), (includes _ o'); intuition congruence.
Qed.

Lemma handleToggle_NoDup value o :
  NoDup value → NoDup (Selection.handleToggle value o).
Proof.
  intros Hnd. unfold Selection.handleToggle.
  destruct (includes value o) eqn:E.
  - rewrite filter_ne_spec. by apply NoDup_filter.
  - apply includes_not_elem_of in E. apply NoDup_app.
    split_and!; [done | | apply NoDup_singleton].
    by intros x Hx ->%list_elem_of_singleton.
Qed.

Lemma toggles_NoDup clicks : ∀ value,
  NoDup value → NoDup (foldl Selection.handleToggle value clicks).
Proof.
  induction clicks as [|c clicks IH]; intros value Hnd; [done |].
  simpl. by apply IH, handleToggle_NoDup.
Qed.

Lemma multiplicity_cons k x (l : list string) :
  multiplicity k (x :: l) = (if decide (x = k) then 1 else 0) + multiplicity k l.
Proof.
  unfold multiplicity. rewrite filter_cons. by case_decide.
Qed.

Lemma toggles_checked clicks : ∀ value o,
  Selection.checked (foldl Selection.handleToggle value clicks) o =
    xorb (Selection.checked value o) (Nat.odd (multiplicity o clicks)).
Proof.
  induction clicks as [|c clicks IH]; intros value o.
  - simpl. by rewrite xorb_false_r.
  - cbn [foldl]. rewrite IH, checked_handleToggle, multiplicity_cons.
    destruct (String.eqb o c) eqn:E.
    + apply String.eqb_eq in E as ->. rewrite decide_True by done.
      change (1 + ?n) with (S n). rewrite Nat.odd_succ, <- Nat.negb_odd.
      by destruct (Selection.checked value c), (Nat.odd _).
    + apply String.eqb_neq in E. rewrite decide_False by congruence. done.
Qed.

(** X1: a click on the box of [o] flips that box and no other. *)
Theorem handleToggle_checked value o o' :
  Selection.checked (Selection.handleToggle value o) o' =
    if String.eqb o' o then negb (Selection.checked value o)
    else Selection.checked value o'.
Proof. apply checked_handleToggle. Qed.

(** X2: whatever boxes are clicked, starting with none ticked, the
    selection never holds an option twice, and an option is ticked exactly
    when it was clicked an odd number of times. *)
Theorem toggles_selection clicks :
  NoDup (foldl Selection.handleToggle [] clicks) ∧
  (∀ o, Selection.checked (foldl Selection.handleToggle [] clicks) o =
        Nat.odd (multiplicity o clicks)) ∧
  (∀ o, o ∈ foldl Selection.handleToggle [] clicks → o ∈ clicks).
Proof.
  split_and!.
  - apply toggles_NoDup, NoDup_nil_2.
  - intros o. by rewrite toggles_checked.
  - intros o Ho. apply includes_elem_of in Ho.
    change (Selection.checked (foldl Selection.handleToggle [] clicks) o = true)
      in Ho.
    rewrite toggles_checked in Ho. simpl in Ho.
    destruct (decide (o ∈ clicks)) as [|Hn]; [done |].
    by rewrite (multiplicity_not_elem_of o clicks Hn) in Ho.
Qed.

Lemma toggles_selection_witness :
  NoDup (foldl Selection.handleToggle [] ["a"; "b"; "a"; "c"]) ∧
  "b" ∈ ["a"; "b"; "a"; "c"].
Proof.
  split.
  - apply (toggles_selection ["a"; "b"; "a"; "c"]).
  - apply (proj2 (proj2 (toggles_selection ["a"; "b"; "a"; "c"])) "b").
    by_eval.
Defined.

(** X3: ticking a box and unticking it gives back the selection as it
    was; unticking and ticking again keeps the same options, the clicked
    one moved to the end. *)
Theorem handleToggle_twice value o :
  (o ∉ value →
   Selection.handleToggle (Selection.handleToggle value o) o = value) ∧
  (o ∈ value →
   Selection.handleToggle (Selection.handleToggle value o) o =
     filter (λ v, v ≠ o) value ++ [o]).
Proof.
  unfold Selection.handleToggle. split; intros Ho.
  - apply includes_not_elem_of in Ho as Hi. rewrite Hi.
    rewrite includes_app, Hi. unfold includes at 1. simpl.
    rewrite String.eqb_refl. simpl.
    rewrite filter_ne_spec, filter_app, filter_cons_False, filter_nil,
      app_nil_r by tauto.
    clear Hi. induction value as [|x value IH]; [done |].
    apply not_elem_of_cons in Ho as [Hx Hv].
    rewrite filter_cons_True by done. by rewrite IH.
  - apply includes_elem_of in Ho as Hi. rewrite Hi, filter_ne_spec.
    assert (Hn : includes (filter (λ v, v ≠ o) value) o = false).
    { apply includes_not_elem_of. rewrite list_elem_of_filter. tauto. }
    by rewrite Hn.
Qed.

Lemma handleToggle_twice_witness :
  Selection.handleToggle (Selection.handleToggle ["Receiver"] "Waste Generator")
    "Waste Generator" = ["Receiver"] ∧
  Selection.handleToggle (Selection.handleToggle ["Receiver"; "Waste Generator"]
    "Receiver") "Receiver" =
    filter (λ v, v ≠ "Receiver") ["Receiver"; "Waste Generator"] ++ ["Receiver"].
Proof.
  split.
  - apply (proj1 (handleToggle_twice ["Receiver"] "Waste Generator")). by_eval.
  - apply (proj2 (handleToggle_twice ["Receiver"; "Waste Generator"] "Receiver")).
    by_eval.
Defined.

End SelectionProperties.

(** ** Factory wizard *)

Section WizardProperties.

Import Wizard.

Implicit Types (f : form) (s : nav) (c : click).

Ltac role_cases rs :=
  destruct (includes rs "Waste Generator") eqn:?,
           (includes rs "Receiver") eqn:?.

Ltac step_cases :=
  repeat match goal with
         | |- context [(?a =? ?b)%Z] => destruct (Z.eqb_spec a b)
         | |- context [(?a <? ?b)%Z] => destruct (Z.ltb_spec a b)
         end.

(** X4: the wizard shows the common screen, then the generator screen if
    that role is ticked, then the receiver screen if that role is ticked,
    then the review screen, which is step [totalSteps]; from step 1 on,
    Submit replaces Next exactly on the review screen. *)
Theorem renderStep_screens (rs : list string) :
  renderStep rs <$> seqZ 1 (totalSteps rs) =
    [CommonScreen] ++
    (if includes rs "Waste Generator" then [GeneratorScreen] else []) ++
    (if includes rs "Receiver" then [ReceiverScreen] else []) ++
    [ReviewScreen] ∧
  (∀ n, (1 ≤ n)%Z →
        (renderStep rs n = ReviewScreen ↔ (totalSteps rs ≤ n)%Z) ∧
        (submit_shown rs n = true ↔ renderStep rs n = ReviewScreen)).
Proof.
  unfold submit_shown, next_shown, renderStep, totalSteps.
  role_cases rs; (split; [done |]); intros n Hn; simpl;
    step_cases; simpl; split; split; intros; try done; try lia.
Qed.

Lemma renderStep_screens_witness :
  (renderStep ["Receiver"] 3 = ReviewScreen ↔ (totalSteps ["Receiver"] ≤ 3)%Z) ∧
  (submit_shown ["Receiver"] 3 = true ↔ renderStep ["Receiver"] 3 = ReviewScreen).
Proof. apply (proj2 (renderStep_screens ["Receiver"]) 3%Z). lia. Defined.

Lemma totalSteps_bounds (rs : list string) : (2 ≤ totalSteps rs ≤ 4)%Z.
Proof. unfold totalSteps. role_cases rs; lia. Qed.

Lemma on_click_ok s c : nav_ok s → nav_ok (on_click s c).
Proof.
  intros Hs. pose proof Hs as (Hstep & Hnd & Hall & Hroles).
  destruct s as [n rs]. cbn [step roles] in *.
  pose proof (totalSteps_bounds rs) as Hb.
  destruct c as [o| |]; cbn [on_click step roles].
  - destruct (renderStep rs n) eqn:Er; [|exact Hs..].
    destruct (includes role_options o) eqn:Eo; [|exact Hs].
    assert (n = 1%Z) as ->.
    { revert Er. unfold renderStep. destruct (Z.eqb_spec n 1); [done |].
      by repeat case_match. }
    pose proof (totalSteps_bounds (Selection.handleToggle rs o)).
    unfold nav_ok. cbn [step roles].
    split_and!; [lia | lia | by apply handleToggle_NoDup | | done].
    apply Forall_forall. intros r Hr. apply elem_of_handleToggle in Hr.
    case_decide as E.
    + subst r. apply includes_elem_of in Eo.
      unfold role_options in Eo.
      apply elem_of_cons in Eo as [? | Eo]; [by left |].
      apply list_elem_of_singleton in Eo. by right.
    + by apply (proj1 (Forall_forall _ _) Hall).
  - unfold next_shown. destruct (Z.ltb_spec n (totalSteps rs)); [|exact Hs].
    unfold handleNext, nav_ok.
    destruct (Z.eqb_spec n 1) as [-> | Hn1]; cbn [andb fst step roles].
    + destruct rs as [|r rs']; cbn [length Nat.eqb fst step roles];
        [exact Hs |].
      split_and!; [lia | lia | done | done | done].
    + split_and!; [lia | lia | done | done | auto].
  - unfold prev_disabled, handlePrev, nav_ok.
    destruct (Z.eqb_spec n 1); [exact Hs |]. cbn [step roles].
    split_and!; [lia | lia | done | done | auto].
Qed.

Lemma run_ok (clicks : list click) : nav_ok (run clicks).
Proof.
  unfold run.
  assert (H : nav_ok nav_init)
    by (unfold nav_ok, nav_init, totalSteps; cbn;
        split_and!; [lia | lia | apply NoDup_nil_2 | apply Forall_nil_2 | done]).
  revert H. generalize nav_init.
  induction clicks as [|c clicks IH]; intros s Hs; [done |].
  simpl. by apply IH, on_click_ok.
Qed.

(** X5: whatever the user clicks, the wizard stays on one of its steps,
    1 to [totalSteps]; the ticked roles are a duplicate-free selection of
    the two options; and past step 1 at least one role is ticked. *)
Theorem run_nav_ok (clicks : list click) :
  (1 ≤ step (run clicks) ≤ totalSteps (roles (run clicks)))%Z ∧
  NoDup (roles (run clicks)) ∧
  Forall (λ r, r = "Waste Generator" ∨ r = "Receiver") (roles (run clicks)) ∧
  (step (run clicks) ≠ 1%Z → roles (run clicks) ≠ []).
Proof. apply run_ok. Qed.

Lemma run_nav_ok_witness :
  step (run [Tick "Receiver"; Next; Tick "Receiver"]) ≠ 1%Z ∧
  roles (run [Tick "Receiver"; Next; Tick "Receiver"]) ≠ [].
Proof.
  split; [by_eval |].
  apply (proj2 (proj2 (proj2
    (run_nav_ok [Tick "Receiver"; Next; Tick "Receiver"])))).
  by_eval.
Defined.

Lemma includes_cons r (rs : list string) k :
  includes (r :: rs) k = String.eqb k r || includes rs k.
Proof. done. Qed.

Lemma length_role_set (rs : list string) :
  NoDup rs → Forall (λ r, r = "Waste Generator" ∨ r = "Receiver") rs →
  Z.of_nat (length rs) = (totalSteps rs - 2)%Z.
Proof.
  intros Hnd Hall. unfold totalSteps.
  induction Hnd as [|r rs Hr Hnd IH]; [done |].
  apply Forall_cons in Hall as [Hx Hall]. specialize (IH Hall).
  apply includes_not_elem_of in Hr.
  rewrite !includes_cons, length_cons.
  destruct Hx as [-> | ->]; rewrite Hr in *; rewrite String.eqb_refl.
  - rewrite (eqb_ne "Receiver" "Waste Generator") by done. simpl. lia.
  - rewrite (eqb_ne "Waste Generator" "Receiver") by done. simpl. lia.
Qed.

Lemma getPayload_length f (rs : list string) :
  Z.of_nat (length (getPayload f rs)) = (totalSteps rs - 2)%Z.
Proof.
  unfold getPayload, composePortalRecords, generator_of, receiver_of, totalSteps.
  by role_cases rs.
Qed.

(** X6: the payload holds one record per role among the ticked ones,
    [totalSteps - 2] in all, the generator record first, each with the
    common fields of the form; and when Submit is shown after any clicks,
    the payload is not empty and has as many records as roles are
    ticked. *)
Theorem getPayload_records f (rs : list string) (clicks : list click) :
  Z.of_nat (length (getPayload f rs)) = (totalSteps rs - 2)%Z ∧
  getPayload f rs =
    (if includes rs "Waste Generator"
     then [mkRecord (with_factory_type (common_of f) "Waste Generator")
             (generator_of f rs) None]
     else []) ++
    (if includes rs "Receiver"
     then [mkRecord (with_factory_type (common_of f) "Receiver")
             None (receiver_of f rs)]
     else []) ∧
  Forall (λ r, obj_get (COMMON r) "Factory Name" = Some (VStr (factoryName f)) ∧
               obj_get (COMMON r) "Certification" =
                 Some (VStr (String.concat ", " (certification f))))
    (getPayload f rs) ∧
  (submit_shown (roles (run clicks)) (step (run clicks)) = true →
   getPayload f (roles (run clicks)) ≠ [] ∧
   length (getPayload f (roles (run clicks))) = length (roles (run clicks))).
Proof.
  split_and!.
  - apply getPayload_length.
  - unfold getPayload, composePortalRecords, generator_of, receiver_of.
    by role_cases rs.
  - unfold getPayload, composePortalRecords, generator_of, receiver_of.
    role_cases rs; simpl; repeat constructor.
  - destruct (run_ok clicks) as (Hstep & Hnd & Hall & Hroles).
    intros Hs. unfold submit_shown, next_shown in Hs.
    apply negb_true_iff, Z.ltb_ge in Hs.
    pose proof (getPayload_length f (roles (run clicks))) as Hl.
    pose proof (length_role_set _ Hnd Hall) as Hr.
    pose proof (totalSteps_bounds (roles (run clicks))).
    assert (Hne : roles (run clicks) ≠ []) by (apply Hroles; lia).
    split; [|lia].
    intros Hnil. rewrite Hnil in Hl. simpl in Hl.
    destruct (roles (run clicks)); [done | simpl in Hr; lia].
Qed.

Lemma getPayload_records_witness :
  getPayload demo_form (roles (run [Tick "Receiver"; Next; Next])) ≠ [] ∧
  length (getPayload demo_form (roles (run [Tick "Receiver"; Next; Next]))) =
    length (roles (run [Tick "Receiver"; Next; Next])).
Proof.
  apply (proj2 (proj2 (proj2
    (getPayload_records demo_form [] [Tick "Receiver"; Next; Next])))).
  reflexivity.
Defined.

End WizardProperties.

(** ** Strings: [trim], [toLowerCase], [includes] *)

Section StringProperties.

Implicit Types (s t sub : string) (c : ascii).

Lemma append_cons c s t : String c s +:+ t = String c (s +:+ t).
Proof. reflexivity. Qed.

Lemma append_empty_l s : "" +:+ s = s.
Proof. reflexivity. Qed.

Lemma append_assoc s t u : (s +:+ t) +:+ u = s +:+ t +:+ u.
Proof.
  induction s as [|c s IH]; [done |]. by rewrite !append_cons, IH.
Qed.

Lemma append_empty_r s : s +:+ "" = s.
Proof. induction s as [|c s IH]; [done |]. by rewrite append_cons, IH. Qed.

Lemma chars_app s t : chars (s +:+ t) = chars s ++ chars t.
Proof.
  induction s as [|c s IH]; [done |]. rewrite append_cons. simpl. by rewrite IH.
Qed.

Lemma is_space_lower c : is_space (lower_char c) = is_space c.
Proof. by destruct c as [[] [] [] [] [] [] [] []]. Qed.

Lemma lower_char_idem c : lower_char (lower_char c) = lower_char c.
Proof. by destruct c as [[] [] [] [] [] [] [] []]. Qed.

Lemma toLowerCase_idem s : toLowerCase (toLowerCase s) = toLowerCase s.
Proof. induction s as [|c s IH]; simpl; [done |]. by rewrite lower_char_idem, IH. Qed.

Lemma toLowerCase_app s t :
  toLowerCase (s +:+ t) = toLowerCase s +:+ toLowerCase t.
Proof. induction s as [|c s IH]; simpl; [done |]. by rewrite IH. Qed.

Lemma toLowerCase_empty s : toLowerCase s = "" ↔ s = "".
Proof. by destruct s. Qed.

Lemma toLowerCase_trim_start s :
  toLowerCase (trim_start s) = trim_start (toLowerCase s).
Proof.
  induction s as [|c s IH]; [done |]. cbn [trim_start toLowerCase].
  rewrite is_space_lower. by destruct (is_space c).
Qed.

Lemma toLowerCase_trim_end s :
  toLowerCase (trim_end s) = trim_end (toLowerCase s).
Proof.
  induction s as [|c s IH]; [done |]. cbn [trim_end toLowerCase].
  rewrite is_space_lower, <- IH.
  assert (String.eqb (toLowerCase (trim_end s)) "" = String.eqb (trim_end s) "")
    as -> by (by destruct (trim_end s)).
  by destruct (is_space c && _).
Qed.

(** Lower-casing and trimming commute: the two pages normalise a name to
    the same key. *)
Lemma toLowerCase_trim s : toLowerCase (trim s) = trim (toLowerCase s).
Proof. unfold trim. by rewrite toLowerCase_trim_end, toLowerCase_trim_start. Qed.

Lemma trim_start_head s c t : trim_start s = String c t → is_space c = false.
Proof.
  induction s as [|c' s IH]; [done |]. simpl.
  destruct (is_space c') eqn:E; [done |]. by intros [= <- _].
Qed.

Lemma trim_end_cons c t :
  is_space c = false → trim_end (String c t) = String c (trim_end t).
Proof. intros H. simpl. by rewrite H. Qed.

Lemma trim_end_idem s : trim_end (trim_end s) = trim_end s.
Proof.
  induction s as [|c s IH]; [done |]. cbn [trim_end].
  destruct (is_space c && String.eqb (trim_end s) "") eqn:E; [done |].
  cbn [trim_end]. by rewrite IH, E.
Qed.

Lemma trim_idem s : trim (trim s) = trim s.
Proof.
  unfold trim. destruct (trim_start s) as [|c t] eqn:E; [done |].
  apply trim_start_head in E as Hc.
  rewrite (trim_end_cons c t Hc). cbn [trim_start]. rewrite Hc.
  rewrite <- (trim_end_cons c t Hc). apply trim_end_idem.
Qed.

Lemma trim_start_chars s c : c ∈ chars (trim_start s) → c ∈ chars s.
Proof.
  induction s as [|c' s IH]; [done |]. simpl.
  destruct (is_space c'); [right; auto | done].
Qed.

Lemma trim_end_chars s c : c ∈ chars (trim_end s) → c ∈ chars s.
Proof.
  induction s as [|c' s IH]; [done |]. simpl.
  destruct (is_space c' && _); simpl; [by intros ?%elem_of_nil |].
  intros [->|?]%elem_of_cons; [left | right; auto].
Qed.

Lemma trim_chars s c : c ∈ chars (trim s) → c ∈ chars s.
Proof. intros H. by apply trim_start_chars, trim_end_chars. Qed.

(** [norm] is idempotent, and blind to case and to white space around the
    text. *)
Lemma norm_idem s : norm (Some (norm (Some s))) = norm (Some s).
Proof.
  rewrite !norm_Some.
  by rewrite <- toLowerCase_trim, trim_idem, toLowerCase_idem.
Qed.

Lemma prefix_app sub t : String.prefix sub (sub +:+ t) = true.
Proof.
  induction sub as [|c sub IH]; simpl; [by destruct t |].
  destruct (ascii_dec c c); [exact IH | done].
Qed.

Lemma prefix_split sub s :
  String.prefix sub s = true → ∃ t, s = sub +:+ t.
Proof.
  revert s. induction sub as [|c sub IH]; intros s; simpl.
  - intros _. by exists s.
  - destruct s as [|c' s]; simpl; [done |].
    destruct (ascii_dec c c') as [<- |]; [|done].
    intros [t ->]%IH. by exists t.
Qed.

(** [s.includes(sub)]: [sub] occurs somewhere in [s]. *)
Lemma str_includes_spec sub s :
  str_includes sub s = true ↔ ∃ a b, s = a +:+ sub +:+ b.
Proof.
  split.
  - induction s as [|c s IH]; cbn [str_includes]; rewrite orb_true_iff.
    + intros [[t Ht]%prefix_split | ?]; [|done]. by exists "", t.
    + intros [[t Ht]%prefix_split | (a & b & ->)%IH].
      * by exists "", t.
      * by exists (String c a), b.
  - intros (a & b & ->). induction a as [|c a IH].
    + rewrite append_empty_l. pose proof (prefix_app sub b) as Hp.
      destruct (sub +:+ b); cbn [str_includes]; by rewrite Hp.
    + rewrite append_cons. cbn [str_includes]. rewrite IH. apply orb_true_r.
Qed.

Lemma str_includes_trans sub s t :
  str_includes sub s = true → str_includes s t = true →
  str_includes sub t = true.
Proof.
  rewrite !str_includes_spec. intros (a & b & ->) (a' & b' & ->).
  exists (a' +:+ a), (b +:+ b'). by rewrite !append_assoc.
Qed.

Lemma str_includes_lower sub s :
  str_includes sub s = true →
  str_includes (toLowerCase sub) (toLowerCase s) = true.
Proof.
  rewrite !str_includes_spec. intros (a & b & ->).
  exists (toLowerCase a), (toLowerCase b). by rewrite !toLowerCase_app.
Qed.

End StringProperties.

(** ** Dashboard *)

Section DashboardProperties.

Import Dashboard.

Implicit Types (s r : string) (sep : ascii).

Lemma split_on_not_nil sep s : split_on sep s ≠ [].
Proof.
  induction s as [|c s IH]; simpl; [done |].
  destruct (Ascii.eqb c sep); [done |]. by destruct (split_on sep s).
Qed.

Lemma split_on_no_sep sep s :
  Forall (λ p, ¬ (sep ∈ chars p)) (split_on sep s).
Proof.
  induction s as [|c s IH]; simpl.
  - constructor; [by intros ?%elem_of_nil | constructor].
  - destruct (Ascii.eqb c sep) eqn:E.
    + constructor; [by intros ?%elem_of_nil | done].
    + apply Ascii.eqb_neq in E.
      destruct (split_on sep s) as [|p ps] eqn:Es;
        [by apply split_on_not_nil in Es |].
      apply Forall_cons in IH as [Hp Hps]. constructor; [|done].
      simpl. intros [?|?]%elem_of_cons; [congruence | done].
Qed.

Lemma split_on_piece sep r :
  ¬ (sep ∈ chars r) → split_on sep r = [r].
Proof.
  induction r as [|c r IH]; [done |]. simpl. intros Hc.
  apply not_elem_of_cons in Hc as [Hne Hr].
  rewrite (proj2 (Ascii.eqb_neq c sep)) by congruence. by rewrite IH.
Qed.

Lemma split_on_app sep r rest :
  ¬ (sep ∈ chars r) →
  split_on sep (r +:+ String sep rest) = r :: split_on sep rest.
Proof.
  induction r as [|c r IH]; intros Hc.
  - rewrite append_empty_l. simpl. by rewrite Ascii.eqb_refl.
  - simpl in Hc. apply not_elem_of_cons in Hc as [Hne Hr].
    rewrite append_cons. simpl.
    rewrite (proj2 (Ascii.eqb_neq c sep)) by congruence. by rewrite IH.
Qed.

Lemma split_on_concat sep (rs : list string) :
  rs ≠ [] → Forall (λ r, ¬ (sep ∈ chars r)) rs →
  split_on sep (String.concat (String sep "") rs) = rs.
Proof.
  intros Hne Hall. induction Hall as [|r rs Hr Hrs IH]; [done |].
  destruct rs as [|r' rs'].
  - simpl. by apply split_on_piece.
  - change (String.concat (String sep "") (r :: r' :: rs'))
      with (r +:+ String sep (String.concat (String sep "") (r' :: rs'))).
    rewrite split_on_app by done. by rewrite IH.
Qed.

(** X7: every role that [normalizeRoles] reads from a comma-separated text
    is non-empty, holds no comma and has no white space at either end; an
    array is passed through as it is, and null or [undefined] gives no
    role. *)
Theorem normalizeRoles_clean s (l : list string) :
  Forall clean_role (normalizeRoles (RolesString s)) ∧
  normalizeRoles (RolesArray l) = l ∧
  normalizeRoles RolesNone = [].
Proof.
  split; [|done]. simpl. apply Forall_forall. intros r.
  rewrite elem_of_List_filter, truthy_ne, list_elem_of_In, in_map_iff.
  intros [(p & <- & Hp) Hne]. apply list_elem_of_In in Hp.
  split_and!; [done | | apply trim_idem].
  intros Hc%trim_chars.
  by apply (proj1 (Forall_forall _ _) (split_on_no_sep ","%char s) p Hp).
Qed.

(** X8: reading back the roles joined with commas gives the roles, when
    each of them is non-empty, comma-free and without white space at
    either end. *)
Theorem normalizeRoles_join (rs : list string) :
  Forall clean_role rs →
  normalizeRoles (RolesString (String.concat "," rs)) = rs.
Proof.
  intros Hall. simpl. destruct rs as [|r rs]; [done |].
  rewrite split_on_concat;
    [| done | eapply Forall_impl; [exact Hall | by intros ? (_ & ? & _)]].
  induction Hall as [|x xs (Hne & _ & Ht) _ IH]; [done |].
  simpl. rewrite Ht, (proj2 (truthy_ne x) Hne). by rewrite IH.
Qed.

Lemma normalizeRoles_join_witness :
  normalizeRoles (RolesString (String.concat "," ["Waste Generator"; "Receiver"])) =
    ["Waste Generator"; "Receiver"].
Proof.
  apply normalizeRoles_join.
  repeat (constructor; [split_and!; by_eval |]). constructor.
Defined.

Lemma badge_tagged common label g d :
  label ≠ "" →
  badge (mkRecord (with_factory_type common label) g d) = VStr label.
Proof.
  intros Hl. unfold badge, common_field, with_factory_type. simpl.
  rewrite obj_get_set_eq. simpl. by rewrite (proj2 (truthy_ne label) Hl).
Qed.

(** X9: on the records of [composePortalRecords] the two KPI lists split
    the records, generators first, and each badge shows the role of its
    record, whatever "Factory Type" the common section came with. *)
Theorem dashboard_composed common generator receiver (roles : list string) :
  generators (composePortalRecords common generator receiver roles) ++
  receivers (composePortalRecords common generator receiver roles) =
    composePortalRecords common generator receiver roles ∧
  Forall (λ wm, badge wm = VStr "Waste Generator")
    (generators (composePortalRecords common generator receiver roles)) ∧
  Forall (λ wm, badge wm = VStr "Receiver")
    (receivers (composePortalRecords common generator receiver roles)).
Proof.
  unfold composePortalRecords, generators, receivers.
  destruct (includes roles "Waste Generator"), (includes roles "Receiver"),
    generator as [g|], receiver as [d|]; simpl;
    split_and!; try done;
    repeat constructor; by apply badge_tagged.
Qed.

(** X10: the recent list shows the last five submissions, or all of them
    when there are fewer, the newest first. *)
Theorem recent_newest_first (l : list PortalRecord) :
  length (recent l) = min 5 (length l) ∧
  (∀ i, i < min 5 (length l) → recent l !! i = l !! (length l - S i)) ∧
  head (recent l) = last l.
Proof.
  unfold recent.
  assert (Hlen : length (drop (length l - 5) l) = min 5 (length l))
    by (rewrite length_drop; lia).
  split_and!.
  - by rewrite length_reverse.
  - intros i Hi. rewrite reverse_lookup by lia.
    rewrite lookup_drop, Hlen. f_equal. lia.
  - rewrite head_reverse, !last_lookup, lookup_drop, Hlen.
    destruct l as [|x l]; [done |]. f_equal. simpl length. lia.
Qed.

Lemma recent_newest_first_witness :
  recent (composePortalRecords demo_common (Some demo_generator)
            (Some demo_receiver) demo_roles) !! 0 =
  composePortalRecords demo_common (Some demo_generator)
    (Some demo_receiver) demo_roles !! 1.
Proof.
  apply (proj1 (proj2 (recent_newest_first
    (composePortalRecords demo_common (Some demo_generator)
       (Some demo_receiver) demo_roles))) 0).
  vm_compute. lia.
Defined.

End DashboardProperties.

(** ** Application store *)

Section StoreProperties.

Import Store.

Lemma obj_get_None (o : obj) k : obj_get o k = None ↔ k ∉ o.*1.
Proof.
  induction o as [|[k0 v0] o IH]; simpl.
  - split; [intros _; apply not_elem_of_nil | done].
  - rewrite not_elem_of_cons. destruct (String.eqb k0 k) eqn:E.
    + apply String.eqb_eq in E. split; [done | intros [? _]; congruence].
    + apply String.eqb_neq in E. rewrite IH. split; [by split | tauto].
Qed.

Lemma spread2_get (b : obj) : ∀ (a : obj) k,
  NoDup b.*1 →
  obj_get (spread2 a b) k =
    match obj_get b k with Some v => Some v | None => obj_get a k end.
Proof.
  unfold spread2. induction b as [|[k1 v1] b IH]; intros a k Hnd; [done |].
  rewrite fmap_cons in Hnd. apply NoDup_cons in Hnd as [Hk1 Hnd].
  cbn [foldl fst snd obj_get]. rewrite IH by done.
  destruct (String.eqb k1 k) eqn:E.
  - apply String.eqb_eq in E as <-.
    rewrite (proj2 (obj_get_None b k1) Hk1). apply obj_get_set_eq.
  - apply String.eqb_neq in E.
    destruct (obj_get b k); [done |]. by apply obj_get_set_ne.
Qed.

Lemma obj_set_present_keys k v (o : obj) :
  array_index k = None → k ∈ o.*1 → (obj_set k v o).*1 = o.*1.
Proof.
  intros Hk Hin. rewrite obj_set_keys by done. by rewrite decide_True.
Qed.

Lemma spread2_keys (b : obj) : ∀ a : obj,
  Forall (λ k, array_index k = None ∧ k ∈ a.*1) b.*1 →
  (spread2 a b).*1 = a.*1.
Proof.
  unfold spread2. induction b as [|[k1 v1] b IH]; intros a Hall; [done |].
  rewrite fmap_cons in Hall. apply Forall_cons in Hall as [[Hk Hin] Hall].
  cbn [foldl fst snd]. simpl in Hk, Hin.
  rewrite IH; rewrite obj_set_present_keys by done; done.
Qed.

(** X11: after [updateSettings] a setting reads as the update gives it
    when the update names it, and as before otherwise; an update that
    names only existing settings adds no key and keeps their order. *)
Theorem updateSettings_get (settings newSettings : obj) :
  NoDup newSettings.*1 →
  (∀ k, obj_get (updateSettings settings newSettings) k =
        match obj_get newSettings k with
        | Some v => Some v
        | None => obj_get settings k
        end) ∧
  (Forall (λ k, array_index k = None ∧ k ∈ settings.*1) newSettings.*1 →
   (updateSettings settings newSettings).*1 = settings.*1).
Proof.
  intros Hnd. split.
  - intros k. by apply spread2_get.
  - apply spread2_keys.
Qed.

Lemma updateSettings_get_witness :
  (∀ k, obj_get (updateSettings
                   [("costPerTonKm", VNum 15); ("defaultMaxDistance", VNum 150)]
                   [("defaultMaxDistance", VNum 200)]) k =
        match obj_get [("defaultMaxDistance", VNum 200)] k with
        | Some v => Some v
        | None => obj_get [("costPerTonKm", VNum 15);
                           ("defaultMaxDistance", VNum 150)] k
        end) ∧
  (updateSettings [("costPerTonKm", VNum 15); ("defaultMaxDistance", VNum 150)]
     [("defaultMaxDistance", VNum 200)]).*1 =
    [("costPerTonKm", VNum 15); ("defaultMaxDistance", VNum 150)].*1.
Proof.
  destruct (updateSettings_get
              [("costPerTonKm", VNum 15); ("defaultMaxDistance", VNum 150)]
              [("defaultMaxDistance", VNum 200)]) as [Hget Hkeys]; [by_eval |].
  split; [exact Hget |]. apply Hkeys.
  repeat (constructor; [split; by_eval |]). constructor.
Defined.

(** X12: storing the records of a submission appends them to the local
    list in their order: nothing stored before is lost or moved, and the
    wizard's payload adds [totalSteps - 2] records. *)
Theorem add_all_appends (wasteMaterials records : list PortalRecord)
    (f : Wizard.form) (rs : list string) :
  add_all wasteMaterials records = wasteMaterials ++ records ∧
  Z.of_nat (length (add_all wasteMaterials (Wizard.getPayload f rs))) =
    (Z.of_nat (length wasteMaterials) + (Wizard.totalSteps rs - 2))%Z.
Proof.
  assert (H : ∀ records wasteMaterials,
             add_all wasteMaterials records = wasteMaterials ++ records).
  { unfold add_all. clear. intros records.
    induction records as [|r records IH]; intros wm; simpl.
    - by rewrite app_nil_r.
    - rewrite IH. unfold addWasteMaterial. by rewrite <- app_assoc. }
  split; [apply H |].
  rewrite H, length_app, Nat2Z.inj_add, getPayload_length. done.
Qed.

End StoreProperties.

(** ** Materials and matches page: search, columns, paging *)

Section SearchProperties.

Import MatchPage.

Implicit Types (q s : string) (r : value) (rows : list value).

Lemma List_filter_sublist {A} (P : A → bool) (l : list A) :
  sublist (List.filter P l) l.
Proof.
  induction l as [|x l IH]; simpl; [constructor |].
  destruct (P x); by constructor.
Qed.

Lemma List_filter_narrow {A} (P Q : A → bool) (l : list A) :
  (∀ x, Q x = true → P x = true) →
  sublist (List.filter Q l) (List.filter P l).
Proof.
  intros HQP. induction l as [|x l IH]; simpl; [constructor |].
  destruct (Q x) eqn:EQ.
  - rewrite (HQP x EQ). by constructor.
  - destruct (P x); [by constructor | done].
Qed.

Lemma trim_start_blank s :
  trim_start s = "" ↔ Forall (λ c, is_space c = true) (chars s).
Proof.
  induction s as [|c s IH]; simpl.
  - split; [constructor | done].
  - rewrite Forall_cons. destruct (is_space c).
    + rewrite IH. tauto.
    + split; [done | by intros [? _]].
Qed.

Lemma trim_blank s :
  trim s = "" ↔ Forall (λ c, is_space c = true) (chars s).
Proof.
  rewrite <- trim_start_blank. unfold trim.
  destruct (trim_start s) as [|c t] eqn:E; [done |].
  apply trim_start_head in E. rewrite (trim_end_cons c t E).
  split; discriminate.
Qed.

Lemma truthy_trim s : truthy (trim s) = true ↔ not_blank s.
Proof.
  rewrite truthy_ne, trim_blank. unfold not_blank. split.
  - intros Hn%not_Forall_Exists; [|apply _].
    apply Exists_exists in Hn as (c & Hc & Hs). exists c.
    split; [done | by apply not_true_is_false].
  - intros (c & Hc & Hs) Hall.
    rewrite Forall_forall in Hall. specialize (Hall c Hc). congruence.
Qed.

Lemma not_blank_includes q s :
  not_blank q → str_includes q s = true → not_blank s.
Proof.
  intros (c & Hc & Hs) (a & b & ->)%str_includes_spec.
  exists c. split; [|done]. rewrite !chars_app, !elem_of_app. tauto.
Qed.

Lemma truthy_trim_lower s :
  truthy (trim (toLowerCase s)) = truthy (trim s).
Proof. rewrite <- toLowerCase_trim. by destruct (trim s). Qed.

(** Every row has a text to search in. *)
Lemma row_text r : ∃ text, JSON_stringify (or_value r (VObj [])) = Some text.
Proof.
  unfold or_value. destruct (truthy_value r) eqn:E; [|simpl; eauto].
  destruct r; try done; simpl; eauto.
Qed.

(** X13: a blank query shows every row; any other query keeps, in their
    order, exactly the rows whose JSON text contains the query, both taken
    in lower case; the case of the query makes no difference. *)
Theorem materialsFiltered_search rows q :
  (¬ not_blank q → materialsFiltered rows q = rows) ∧
  (not_blank q →
   sublist (materialsFiltered rows q) rows ∧
   ∀ r, r ∈ materialsFiltered rows q ↔
        r ∈ rows ∧
        ∃ text, JSON_stringify (or_value r (VObj [])) = Some text ∧
                str_includes (toLowerCase q) (toLowerCase text) = true) ∧
  materialsFiltered rows (toLowerCase q) = materialsFiltered rows q.
Proof.
  unfold materialsFiltered. split_and!.
  - rewrite <- truthy_trim. by intros ->%not_true_is_false.
  - rewrite <- truthy_trim. intros ->. simpl.
    split; [apply List_filter_sublist |].
    intros r. rewrite elem_of_List_filter. unfold row_matches.
    destruct (row_text r) as [text ->]. split.
    + intros [? ?]. eauto.
    + by intros [? (? & [= <-] & ?)].
  - by rewrite truthy_trim_lower, toLowerCase_idem.
Qed.

Lemma materialsFiltered_search_witness :
  materialsFiltered demo_materials "   " = demo_materials ∧
  sublist (materialsFiltered demo_materials "ACME") demo_materials.
Proof.
  split.
  - apply (proj1 (materialsFiltered_search demo_materials "   ")).
    intros (c & Hc & Hs). vm_compute in Hc.
    repeat (apply elem_of_cons in Hc as [-> | Hc]; [done |]).
    by apply elem_of_nil in Hc.
  - apply (proj1 (proj2 (materialsFiltered_search demo_materials "ACME"))).
    exists "A"%char. split; [left | reflexivity].
Defined.

(** X14: on text in code units below 256, where lower-casing works unit
    by unit, a query that contains another query shows no row that the
    shorter query hides. *)
Theorem materialsFiltered_narrow rows q1 q2 :
  not_blank q1 → str_includes q1 q2 = true →
  sublist (materialsFiltered rows q2) (materialsFiltered rows q1).
Proof.
  intros H1 Hinc. pose proof (not_blank_includes q1 q2 H1 Hinc) as H2.
  unfold materialsFiltered.
  rewrite (proj2 (truthy_trim q1) H1), (proj2 (truthy_trim q2) H2). simpl.
  apply List_filter_narrow. intros r. unfold row_matches.
  destruct (JSON_stringify _); [|done].
  apply str_includes_trans. by apply str_includes_lower.
Qed.

Lemma materialsFiltered_narrow_witness :
  sublist (materialsFiltered demo_materials "acme steel")
    (materialsFiltered demo_materials "acme").
Proof.
  apply materialsFiltered_narrow; [|reflexivity].
  exists "a"%char. split; [left | reflexivity].
Defined.

End SearchProperties.

Section TableProperties.

Import MatchPage.

Implicit Types (rows : list value) (preferred : list string) (k : string).

Lemma elem_of_unionKeys rows preferred k :
  k ∈ unionKeysWithPreferred rows preferred ↔ key_of_rows rows k.
Proof.
  rewrite unionKeysWithPreferred_unfold, elem_of_app, list_elem_of_filter,
    elem_of_rest.
  destruct (decide (k ∈ preferred)); tauto.
Qed.

Lemma flat_not_plain (v : value) k x :
  obj_get (flatten1 v) k = Some x → is_plain_object x = false.
Proof.
  intros E.
  assert (H : Forall not_plain (flatten1 v))
    by (apply flatten_not_plain; constructor).
  rewrite Forall_forall in H.
  assert (Hin : (∃ k', (k', x) ∈ flatten1 v)).
  { clear H. induction (flatten1 v) as [|[k0 v0] o IH]; [done |].
    simpl in E. destruct (String.eqb k0 k).
    - injection E as ->. exists k0. left.
    - destruct (IH E) as [k' ?]. exists k'. by right. }
  destruct Hin as [k' Hin]. exact (H _ Hin).
Qed.

(** X15: the columns of the materials table are exactly the keys of its
    object rows, and those of the matches table exactly the dotted keys of
    its flattened matches, so no field of a row lacks a column; and no
    key of a flattened match is bound to a nested object. *)
Theorem table_columns rows (ps : list paired) (matchesRaw : list value) :
  (∀ k, k ∈ materialsCols rows ↔ key_of_rows rows k) ∧
  (∀ k, k ∈ matchesCols ps ↔ ∃ p, p ∈ ps ∧ k ∈ (flat p).*1) ∧
  (∀ p k x, p ∈ matchesPaired matchesRaw →
            obj_get (flat p) k = Some x → is_plain_object x = false).
Proof.
  split_and!.
  - intros k. apply elem_of_unionKeys.
  - intros k. unfold matchesCols. rewrite elem_of_unionKeys.
    unfold key_of_rows. split.
    + intros (r & Hr & _ & Hk).
      apply list_elem_of_In, in_map_iff in Hr as (p & <- & Hp).
      exists p. split; [by apply list_elem_of_In | done].
    + intros (p & Hp & Hk). exists (VObj (flat p)). split_and!; [|done..].
      apply list_elem_of_In, in_map_iff. exists p.
      split; [done | by apply list_elem_of_In].
  - intros p k x Hp. unfold matchesPaired in Hp.
    apply list_elem_of_In, in_map_iff in Hp as (v & <- & _).
    apply flat_not_plain.
Qed.

Lemma table_columns_witness :
  mkPaired demo_match (flatten1 demo_match) ∈ matchesPaired [demo_match] ∧
  obj_get (flatten1 demo_match) "tags" =
    Some (VArr [VStr "ash"; VObj [("k", VNum 1)]]) ∧
  is_plain_object (VArr [VStr "ash"; VObj [("k", VNum 1)]]) = false.
Proof.
  split; [left |]. split; [reflexivity |].
  apply (proj2 (proj2 (table_columns [] [] [demo_match]))
           (mkPaired demo_match (flatten1 demo_match)) "tags").
  - left.
  - reflexivity.
Defined.

(** X16: after [n] clicks on Load more the table shows the first
    [100 * (n + 1)] rows, in their order, or all of them if there are
    fewer: its [i]-th row is the [i]-th row of the list for every [i] below
    that bound, and it has no row from there on; and the button is shown
    exactly while some row is not. *)
Theorem paging_visible {A} (rows : list A) (vis n : nat) :
  (∀ i, visible rows (Nat.iter n load_more PAGE) !! i =
        if i <? 100 * (n + 1) then rows !! i else None) ∧
  length (visible rows (Nat.iter n load_more PAGE)) =
    min (100 * (n + 1)) (length rows) ∧
  (load_more_shown rows vis = false ↔ visible rows vis = rows).
Proof.
  assert (Hiter : Nat.iter n load_more PAGE = 100 * (n + 1)).
  { unfold load_more, PAGE. induction n as [|n IH]; [done |].
    rewrite Nat.iter_succ, IH. lia. }
  unfold visible, load_more_shown. split_and!.
  - intros i. rewrite Hiter. destruct (i <? 100 * (n + 1)) eqn:E.
    + apply Nat.ltb_lt in E. by apply lookup_take_lt.
    + apply Nat.ltb_ge in E. by apply lookup_take_ge.
  - by rewrite Hiter, length_take.
  - rewrite Nat.ltb_ge. split.
    + apply take_ge.
    + intros H. apply (f_equal length) in H. rewrite length_take in H. lia.
Qed.

Lemma paging_visible_witness :
  load_more_shown [1; 2; 3] 100 = false ∧ visible [1; 2; 3] 100 = [1; 2; 3].
Proof.
  split; [reflexivity |].
  by apply (proj1 (proj2 (proj2 (paging_visible [1; 2; 3] 100 0)))).
Defined.

End TableProperties.

(** ** Materials and matches page: messaging *)

Section MessagingProperties.

Import MatchPage.

Implicit Types (m : gmap string (list Z)) (r : value) (rows : list value).
Implicit Types (key name : string).

Lemma ids_of_cons r rows key :
  ids_of (r :: rows) key = ids_of [r] key ++ ids_of rows key.
Proof.
  unfold ids_of. simpl.
  destruct (name_key r), (get_prop r "factory_id"); try done.
  by case_decide.
Qed.

Lemma head_push (arr : list Z) id :
  head (if includes_id arr id then arr else arr ++ [id]) = head (arr ++ [id]).
Proof.
  destruct (includes_id arr id) eqn:E; [|done].
  destruct arr; [done | done].
Qed.

Lemma index_row_filed m r m' :
  index_row m r = Some m' →
  (∀ key, truthy key = true →
          head (filed m' key) = head (filed m key ++ ids_of [r] key)) ∧
  m' !! "" = m !! "".
Proof.
  unfold index_row, ids_of, filed. simpl.
  destruct (name_key r) as [k|]; [|done]. simpl.
  destruct (get_prop r "factory_id") as [| | |id| | |];
    try (intros [= <-]; split; [intros; by rewrite app_nil_r | done]).
  destruct (truthy k) eqn:Ek.
  - intros [= <-]. apply truthy_ne in Ek. split.
    + intros key Hkey. destruct (decide (k = key)) as [<- | Hne].
      * rewrite lookup_insert_eq. simpl. apply head_push.
      * rewrite lookup_insert_ne by done. by rewrite app_nil_r.
    + by rewrite lookup_insert_ne.
  - intros [= <-]. split; [|done]. intros key Hkey.
    rewrite decide_False; [by rewrite app_nil_r |].
    intros <-. congruence.
Qed.

Lemma byName_thrown rows :
  foldl index_step None rows = None.
Proof. by induction rows. Qed.

Lemma head_app_congr (a b c : list Z) :
  head a = head b → head (a ++ c) = head (b ++ c).
Proof. destruct a, b; simpl; congruence. Qed.

Lemma byName_filed rows : ∀ m0 m,
  foldl index_step (Some m0) rows = Some m →
  (∀ key, truthy key = true →
          head (filed m key) = head (filed m0 key ++ ids_of rows key)) ∧
  m !! "" = m0 !! "".
Proof.
  induction rows as [|r rows IH]; intros m0 m.
  - intros [= <-]. split; [intros; by rewrite app_nil_r | done].
  - cbn [foldl index_step mbind option_bind].
    destruct (index_row m0 r) as [m1|] eqn:E1;
      [|by rewrite byName_thrown].
    intros Hm. apply IH in Hm as [Hhead Hempty].
    apply index_row_filed in E1 as [Hhead1 Hempty1].
    split; [|congruence].
    intros key Hkey. rewrite Hhead, ids_of_cons, app_assoc by done.
    by apply head_app_congr, Hhead1.
Qed.

Lemma byName_throws rows : ∀ m0,
  foldl index_step (Some m0) rows = None ↔
  ∃ r, r ∈ rows ∧ name_key r = None.
Proof.
  induction rows as [|r rows IH]; intros m0.
  - split; [done | by intros (? & ?%elem_of_nil & _)].
  - cbn [foldl index_step mbind option_bind].
    destruct (index_row m0 r) as [m1|] eqn:E1.
    + rewrite IH. split.
      * intros (r' & ? & ?). exists r'. split; [by right | done].
      * intros (r' & [-> | ?]%elem_of_cons & Hr'); [|by exists r'].
        unfold index_row in E1. by rewrite Hr' in E1.
    + rewrite byName_thrown. split; [|done]. intros _. exists r.
      split; [left |]. unfold index_row in E1.
      destruct (name_key r); [|done]. simpl in E1.
      by repeat case_match.
Qed.

(** X17: the index of ids by name fails exactly when some row has a name
    that is truthy and not a string; otherwise a name resolves to the id
    of the first row with a numeric id whose name is the same up to case
    and surrounding white space, and to nothing when there is no such row
    or the name is blank. *)
Theorem byName_resolve rows :
  (byName rows = None ↔ ∃ r, r ∈ rows ∧ name_key r = None) ∧
  (∀ m name,
     byName rows = Some m →
     resolveFactoryIdByName m (Some name) =
       if truthy (trim (toLowerCase name))
       then head (ids_of rows (trim (toLowerCase name)))
       else None) ∧
  (∀ m, resolveFactoryIdByName m None = None).
Proof.
  split_and!; [apply byName_throws | | done].
  intros m name Hm. apply byName_filed in Hm as [Hhead Hempty].
  rewrite lookup_empty in Hempty. unfold resolveFactoryIdByName.
  destruct (truthy (trim (toLowerCase name))) eqn:Ek.
  - assert (truthy name = true) as ->.
    { apply truthy_ne. intros ->. done. }
    specialize (Hhead _ Ek). unfold filed in Hhead.
    rewrite lookup_empty in Hhead. simpl in Hhead. rewrite <- Hhead.
    by destruct (m !! trim (toLowerCase name)) as [[|??]|].
  - destruct (truthy name); [|done].
    assert (trim (toLowerCase name) = "") as ->.
    { apply not_true_iff_false in Ek. rewrite truthy_ne in Ek.
      by destruct (decide (trim (toLowerCase name) = "")). }
    by rewrite Hempty.
Qed.

Lemma byName_resolve_witness :
  ∃ m, byName demo_materials = Some m ∧
       resolveFactoryIdByName m (Some " ACME STEEL") = Some 7%Z.
Proof.
  destruct (byName demo_materials) as [m|] eqn:E; [|by vm_compute in E].
  exists m. split; [done |].
  by rewrite (proj1 (proj2 (byName_resolve demo_materials)) m " ACME STEEL" E).
Defined.

(** X18: the message dialog never opens on factory id 0 nor under an
    empty title; a non-zero numeric [supplier_id] is the target whatever
    the names say; and when both explicit ids are the number 0 the dialog
    does not open, the name is not even looked up. *)
Theorem openMessageModalFor_target m (p : paired) (t : side) :
  (∀ target title,
     openMessageModalFor m p t = OpenModal target title →
     target ≠ 0%Z ∧ title ≠ "") ∧
  (∀ n, get_prop (or_value (orig p) (VObj [])) "supplier_id" = VNum n →
        n ≠ 0%Z →
        ∃ title, openMessageModalFor m p Supplier = OpenModal n title) ∧
  (get_prop (or_value (orig p) (VObj [])) "supplier_id" = VNum 0 →
   get_prop (or_value (orig p) (VObj [])) "supplierFactoryId" = VNum 0 →
   ∃ msg, openMessageModalFor m p Supplier = Toast msg).
Proof.
  split_and!.
  - intros target title. unfold openMessageModalFor. cbv zeta.
    match goal with
    | |- match ?f with Some _ => _ | None => _ end = _ → _ =>
        destruct f as [n|]; [|done]
    end.
    destruct (Z.eqb_spec n 0); [done |]. intros [= <- <-]. split; [done |].
    match goal with
    | |- (if truthy ?x then _ else _) ≠ _ => destruct (truthy x) eqn:E
    end; [by apply truthy_ne | done].
  - intros n Hn Hne. unfold openMessageModalFor. rewrite Hn.
    unfold or_value at 1. simpl.
    rewrite (proj2 (Z.eqb_neq n 0) Hne). simpl.
    rewrite (proj2 (Z.eqb_neq n 0) Hne). eauto.
  - intros H1 H2. unfold openMessageModalFor. rewrite H1, H2. simpl. eauto.
Qed.

Lemma openMessageModalFor_target_witness :
  ∃ title,
    openMessageModalFor ∅
      (mkPaired (VObj [("supplier_id", VNum 7)])
         (flatten1 (VObj [("supplier_id", VNum 7)]))) Supplier =
    OpenModal 7 title.
Proof.
  apply (proj1 (proj2 (openMessageModalFor_target ∅
    (mkPaired (VObj [("supplier_id", VNum 7)])
       (flatten1 (VObj [("supplier_id", VNum 7)]))) Supplier)) 7%Z);
    [reflexivity | lia].
Defined.

End MessagingProperties.

(** ** Cycles page *)

Section CyclesProperties.

Import CyclesPage.

Implicit Types (cycles : list (list string)) (q : string).

Lemma norm_lower q : norm (Some (toLowerCase q)) = norm (Some q).
Proof. by rewrite !norm_Some, <- toLowerCase_trim, toLowerCase_idem. Qed.

Lemma norm_trim q : norm (Some (trim q)) = norm (Some q).
Proof. by rewrite !norm_Some, trim_idem. Qed.

(** X19: a query that is blank after trimming shows every cycle; any
    other query keeps, in their order, exactly the cycles with a node whose
    trimmed lower-case name contains the trimmed lower-case query; and the
    case of the query and the white space around it make no difference. *)
Theorem filteredCycles_search cycles q :
  (trim q = "" → filteredCycles cycles q = cycles) ∧
  (trim q ≠ "" →
   sublist (filteredCycles cycles q) cycles ∧
   ∀ cycle, cycle ∈ filteredCycles cycles q ↔
            cycle ∈ cycles ∧
            ∃ node, node ∈ cycle ∧
                    str_includes (toLowerCase (trim q))
                      (toLowerCase (trim node)) = true) ∧
  filteredCycles cycles (toLowerCase q) = filteredCycles cycles q ∧
  filteredCycles cycles (trim q) = filteredCycles cycles q.
Proof.
  unfold filteredCycles. rewrite norm_lower, norm_trim, norm_Some.
  split_and!; [| | done..].
  - by intros ->.
  - intros Hq.
    assert (truthy (toLowerCase (trim q)) = true) as ->
      by (apply truthy_ne; by rewrite toLowerCase_empty).
    simpl. split; [apply List_filter_sublist |].
    intros cycle. rewrite elem_of_List_filter. unfold cycle_matches.
    rewrite existsb_exists. split.
    + intros [? (node & Hn & Hi)]. split; [done |]. exists node.
      rewrite norm_Some in Hi. by rewrite list_elem_of_In.
    + intros [? (node & Hn & Hi)]. split; [done |]. exists node.
      rewrite norm_Some. by rewrite <- list_elem_of_In.
Qed.

Lemma filteredCycles_search_witness :
  filteredCycles [["A"; "B"]; ["C"]] "  " = [["A"; "B"]; ["C"]] ∧
  sublist (filteredCycles [["A"; "B"]; ["C"]] " b") [["A"; "B"]; ["C"]].
Proof.
  split.
  - by apply (proj1 (filteredCycles_search [["A"; "B"]; ["C"]] "  ")).
  - by apply (proj1 (proj2 (filteredCycles_search [["A"; "B"]; ["C"]] " b"))).
Defined.

End CyclesProperties.

(** ** Reading the exported CSV back *)

Section CsvReaderProperties.

Import CsvReader.

Implicit Types (s t cur rest : string) (row : list string) (st : state).

Lemma concat_cons_cons sep s t (l : list string) :
  String.concat sep (s :: t :: l) = s +:+ sep +:+ String.concat sep (t :: l).
Proof. reflexivity. Qed.

Lemma read_close st cur row rest :
  st ≠ InQuoted → at_separator rest →
  read st cur row rest = close cur row rest.
Proof.
  intros Hst [-> | [r [-> | ->]]]; destruct st; done.
Qed.

Lemma csv_special_false c :
  csv_special c = false →
  Ascii.eqb c dquote = false ∧ Ascii.eqb c ","%char = false ∧
  Ascii.eqb c newline = false.
Proof.
  unfold csv_special. rewrite !orb_false_iff. tauto.
Qed.

Lemma read_plain t cur row rest :
  needs_quoting t = false →
  read InPlain cur row (t +:+ rest) = read InPlain (cur +:+ t) row rest.
Proof.
  revert cur. induction t as [|c t IH]; intros cur Hq.
  - by rewrite append_empty_l, append_empty_r.
  - simpl in Hq. apply orb_false_iff in Hq as [Hc Hq].
    apply csv_special_false in Hc as (H1 & H2 & H3).
    rewrite append_cons. cbn [read]. rewrite H1, H2, H3.
    rewrite IH by done. by rewrite append_assoc, append_cons, append_empty_l.
Qed.

Lemma read_quoted t cur row rest :
  read InQuoted cur row (double_quotes t +:+ String dquote rest) =
  read AfterQuote (cur +:+ t) row rest.
Proof.
  revert cur. induction t as [|c t IH]; intros cur.
  - rewrite append_empty_r. cbn [double_quotes]. rewrite append_empty_l.
    cbn [read]. by rewrite Ascii.eqb_refl.
  - cbn [double_quotes]. destruct (Ascii.eqb c dquote) eqn:E.
    + apply Ascii.eqb_eq in E as ->. rewrite !append_cons. cbn [read].
      rewrite Ascii.eqb_refl. rewrite IH.
      by rewrite append_assoc, append_cons, append_empty_l.
    + rewrite append_cons. cbn [read]. rewrite E, IH.
      by rewrite append_assoc, append_cons, append_empty_l.
Qed.

Lemma read_field cell row rest :
  at_separator rest →
  read AtStart "" row (field cell +:+ rest) = close (cell_text cell) row rest.
Proof.
  intros Hrest. unfold field, cell_text. cbv zeta.
  generalize (to_String (or_empty cell)). intros t.
  destruct (needs_quoting t) eqn:Hq.
  - rewrite append_cons, append_assoc, append_cons, append_empty_l.
    cbn [read]. rewrite Ascii.eqb_refl, read_quoted, append_empty_l.
    by apply read_close.
  - destruct t as [|c t]; [rewrite append_empty_l; by apply read_close |].
    simpl in Hq. apply orb_false_iff in Hq as [Hc Hq].
    apply csv_special_false in Hc as (H1 & H2 & H3).
    rewrite append_cons. cbn [read]. rewrite H1, H2, H3, append_empty_l.
    rewrite read_plain by done. rewrite append_cons, append_empty_l.
    by apply read_close.
Qed.

Lemma after_line_separator rest : after_line rest → at_separator rest.
Proof. intros [-> | [r ->]]; [by left | right; exists r; by right]. Qed.

Lemma read_line (cells : list value) row rest :
  cells ≠ [] → after_line rest →
  read AtStart "" row (String.concat "," (List.map field cells) +:+ rest) =
  close (cell_text (List.last cells VUndef))
    (row ++ List.map cell_text (removelast cells)) rest.
Proof.
  intros Hne Hrest. revert row.
  induction cells as [|c cells IH]; [done |]. intros row.
  destruct cells as [|c' cells].
  - cbn [List.map String.concat List.last removelast]. rewrite app_nil_r.
    apply read_field, after_line_separator, Hrest.
  - cbn [List.map]. rewrite concat_cons_cons, !append_assoc.
    rewrite read_field by (right; eexists; by left).
    rewrite append_cons, append_empty_l. cbn [close].
    assert (Ascii.eqb ","%char ","%char = true) as -> by done.
    cbn [List.map] in IH. rewrite IH by done.
    change (List.last (c :: c' :: cells) VUndef)
      with (List.last (c' :: cells) VUndef).
    change (removelast (c :: c' :: cells))
      with (c :: removelast (c' :: cells)).
    cbn [List.map]. by rewrite <- app_assoc.
Qed.

Lemma map_removelast_last {A B} (f : A → B) (l : list A) d :
  l ≠ [] → List.map f (removelast l) ++ [f (List.last l d)] = List.map f l.
Proof.
  intros Hne. rewrite (app_removelast_last d Hne) at 3.
  by rewrite List.map_app.
Qed.

Lemma read_lines (lines : list (list value)) :
  lines ≠ [] → Forall (λ l, l ≠ []) lines →
  read AtStart "" []
    (String.concat (String newline "")
       (List.map (λ l, String.concat "," (List.map field l)) lines)) =
  List.map (List.map cell_text) lines.
Proof.
  intros Hne Hall. induction Hall as [|l lines Hl Hall IH]; [done |].
  destruct lines as [|l' lines].
  - cbn [List.map String.concat].
    rewrite <- (append_empty_r (String.concat _ _)).
    rewrite read_line by (done || by left). cbn [close app].
    by rewrite map_removelast_last.
  - cbn [List.map]. rewrite concat_cons_cons, append_cons, append_empty_l.
    rewrite read_line by (done || right; by eexists). cbn [close app].
    assert (Ascii.eqb newline ","%char = false) as -> by done.
    rewrite map_removelast_last by done. f_equal. by apply IH.
Qed.

Lemma cell_text_headers (headers : list string) :
  List.map cell_text (List.map VStr headers) = headers.
Proof.
  induction headers as [|h headers IH]; [done |].
  cbn [List.map]. by rewrite IH.
Qed.

Lemma read_csv_text rows headers :
  headers ≠ [] → read_csv (csv_text rows headers) = table rows headers.
Proof.
  intros Hne. unfold read_csv, csv_text, table. cbv zeta.
  rewrite read_lines.
  - cbn [List.map]. rewrite cell_text_headers. f_equal.
    rewrite List.map_map. apply List.map_ext. intros r.
    by rewrite List.map_map.
  - done.
  - constructor; [by destruct headers |].
    apply Forall_forall. intros l Hl.
    apply list_elem_of_In, List.in_map_iff in Hl as (r & <- & _).
    by destruct headers.
Qed.

(** X20: when there is at least one header, reading the exported text as
    CSV (fields separated by commas, records by line feeds, quoted fields
    with doubled quotes) gives back the header row followed by one record
    per row, whose fields are the texts of the cells under the headers:
    the quoting loses nothing. *)
Theorem csv_text_read_back rows headers :
  headers ≠ [] → read_csv (csv_text rows headers) = table rows headers.
Proof. apply read_csv_text. Qed.

Lemma csv_text_read_back_witness :
  ["a"; "b"] ≠ [] ∧
  read_csv (csv_text [demo_row] ["a"; "b"]) = [["a"; "b"]; ["x,y"; "1"]].
Proof.
  split; [done |]. by rewrite (csv_text_read_back [demo_row] ["a"; "b"]).
Defined.

(** X21: two exports with the same text have the same headers, the same
    number of rows and the same text in every cell, provided neither has
    an empty header list. *)
Theorem csv_text_determines_table rows1 rows2 (headers1 headers2 : list string) :
  headers1 ≠ [] → headers2 ≠ [] →
  csv_text rows1 headers1 = csv_text rows2 headers2 →
  headers1 = headers2 ∧ length rows1 = length rows2 ∧
  table rows1 headers1 = table rows2 headers2.
Proof.
  intros H1 H2 Heq.
  assert (table rows1 headers1 = table rows2 headers2) as Ht
    by (rewrite <- !read_csv_text by done; by rewrite Heq).
  split_and!; [| | done].
  - unfold table in Ht. congruence.
  - apply (f_equal length) in Ht. unfold table in Ht.
    cbn [length] in Ht. rewrite !List.length_map in Ht. lia.
Qed.

Lemma csv_text_determines_table_witness :
  table [demo_row] ["a"; "b"] = table [VObj [("b", VNum 1); ("a", VStr "x,y")]] ["a"; "b"].
Proof.
  by apply (csv_text_determines_table [demo_row]
              [VObj [("b", VNum 1); ("a", VStr "x,y")]] ["a"; "b"] ["a"; "b"]).
Defined.

(** With no header at all the text is one line feed per row and no longer
    tells the number of rows from a table of empty cells. *)
Remark csv_text_no_headers rows :
  csv_text rows [] = String.concat (String newline "") (List.map (λ _, "") (VUndef :: rows)).
Proof.
  unfold csv_text. cbv zeta. cbn [List.map String.concat].
  by rewrite List.map_map.
Qed.

End CsvReaderProperties.
